(** * mentat: the code context and its token-budget allocator

    A shallow embedding of [mentat/code_context.py]: the overlays
    [_set_include_paths] and [_set_diff_annotations], the budget allocator
    [_set_code_map], and the facade methods [CodeContext.refresh] and
    [CodeContext.add_path].

    The module [context_tree] the file imports ([ContextNode],
    [DirectoryNode], [FileNode], [get_node]) is not part of the sources at
    hand; its operations are modelled from the specification and marked as
    such.  The token counter, the diff source, the ctags check and the file
    system are external collaborators and enter as parameters.

    The second part covers the rest of the facade ([files], [remove_path])
    and, of [mentat/sampler/sampler.py], [parse_message] and the two pure
    loops of [Sampler.create_sample]: the one over the conversation and the
    one over the file edits. *)

From Stdlib Require Import ZArith Lia.
From stdpp Require Import base option list strings sorting gmap.

Local Open Scope Z_scope.

(** ** Paths, settings and nodes *)

(** A path, as its sequence of segments relative to the git root
    ([Path.parts]); the root itself is the empty sequence. *)
Definition Path := list string.

(** [NodeSettings]: the four per-node settings. *)
Record NodeSettings := mkSettings {
  include : bool;
  diff : bool;
  code_map : bool;
  include_signature : bool
}.

(** The keys of the dict handed to [update_settings]. *)
Inductive SettingKey :=
| Key_include
| Key_diff
| Key_code_map
| Key_include_signature.

#[global] Instance SettingKey_eq_dec : EqDecision SettingKey.
Proof. solve_decision. Defined.

#[global] Instance NodeSettings_eq_dec : EqDecision NodeSettings.
Proof. solve_decision. Defined.

(** One line-range/text pair of a diff annotation. *)
Record DiffAnnotation := mkAnnotation {
  ann_start : nat;
  ann_length : nat;
  ann_text : string
}.

(** The context tree.  A directory owns its children, a mapping from a path
    segment to the child node; it is kept as an association list in
    insertion order, the order in which a Python dict is iterated. *)
#[local] Unset Elimination Schemes.
Inductive ContextNode :=
| FileNode (path : Path) (node_settings : NodeSettings)
    (diff_annotations : list DiffAnnotation)
| DirectoryNode (path : Path) (node_settings : NodeSettings)
    (children : list (string * ContextNode)).
#[local] Set Elimination Schemes.

Definition node_path (n : ContextNode) : Path :=
  match n with
  | FileNode p _ _ => p
  | DirectoryNode p _ _ => p
  end.

Definition settings_of (n : ContextNode) : NodeSettings :=
  match n with
  | FileNode _ s _ => s
  | DirectoryNode _ s _ => s
  end.

Definition children_of (n : ContextNode) : list (string * ContextNode) :=
  match n with
  | FileNode _ _ _ => []
  | DirectoryNode _ _ cs => cs
  end.

(** [isinstance(node, FileNode)] *)
Definition is_file (n : ContextNode) : bool :=
  match n with
  | FileNode _ _ _ => true
  | DirectoryNode _ _ _ => false
  end.

(** A node without its descendants: what a non-recursive operation on the
    node can see. *)
Definition shallow (n : ContextNode) : ContextNode :=
  match n with
  | FileNode p s ann => FileNode p s ann
  | DirectoryNode p s _ => DirectoryNode p s []
  end.

(** Modelled from the spec: [ContextNode.relative_path()], the node's path
    relative to the tree root.  Paths are kept relative to the root here, so
    it reads the node's own path. *)
Definition relative_path (n : ContextNode) : Path := node_path n.

(** ** Settings propagator *)

Definition set_key (k : SettingKey) (v : bool) (s : NodeSettings) : NodeSettings :=
  match k with
  | Key_include => mkSettings v (diff s) (code_map s) (include_signature s)
  | Key_diff => mkSettings (include s) v (code_map s) (include_signature s)
  | Key_code_map => mkSettings (include s) (diff s) v (include_signature s)
  | Key_include_signature => mkSettings (include s) (diff s) (code_map s) v
  end.

Definition get_key (k : SettingKey) (s : NodeSettings) : bool :=
  match k with
  | Key_include => include s
  | Key_diff => diff s
  | Key_code_map => code_map s
  | Key_include_signature => include_signature s
  end.

(** The partial update: the items of the dict, written in order. *)
Definition apply_update (u : list (SettingKey * bool)) (s : NodeSettings) : NodeSettings :=
  foldl (fun acc kv => set_key kv.1 kv.2 acc) s u.

(** Modelled from the spec: [ContextNode.update_settings(partial, recursive)]
    merges the given keys into the node's settings, overwriting only those
    keys; with [recursive] the same update is applied to every current
    descendant, depth first and without short-circuit. *)
Fixpoint update_settings (u : list (SettingKey * bool)) (recursive : bool)
    (n : ContextNode) : ContextNode :=
  match n with
  | FileNode p s ann => FileNode p (apply_update u s) ann
  | DirectoryNode p s cs =>
      DirectoryNode p (apply_update u s)
        (if recursive
         then (fun kc => match kc with
                         | (k, c) => (k, update_settings u recursive c)
                         end) <$> cs
         else cs)
  end.

(** Modelled from the spec: [FileNode.set_diff_annotations]. *)
Definition set_diff_annotations (ann : list DiffAnnotation) (n : ContextNode) : ContextNode :=
  match n with
  | FileNode p s _ => FileNode p s ann
  | DirectoryNode p s cs => DirectoryNode p s cs
  end.

(** ** Node identity: addresses *)

(** The Python code holds references to node objects of one shared tree and
    mutates them in place.  A node is identified here by its address: the
    positions of the children to descend through, starting at the root. *)
Definition addr := list nat.

Fixpoint node_at (a : addr) (n : ContextNode) : option ContextNode :=
  match a with
  | [] => Some n
  | i :: a' =>
      match children_of n !! i with
      | Some (_, c) => node_at a' c
      | None => None
      end
  end.

(** In-place mutation of the node at an address. *)
Fixpoint update_at (a : addr) (f : ContextNode -> ContextNode) (n : ContextNode)
    : ContextNode :=
  match a with
  | [] => f n
  | i :: a' =>
      match n with
      | FileNode _ _ _ => n
      | DirectoryNode p s cs =>
          DirectoryNode p s (alter (fun kc => (kc.1, update_at a' f kc.2)) i cs)
      end
  end.

(** The addresses below a directory, child after child. *)
Fixpoint iter_children (rec : ContextNode -> list addr) (i : nat)
    (cs : list (string * ContextNode)) : list addr :=
  match cs with
  | [] => []
  | (_, c) :: cs' => (cons i <$> rec c) ++ iter_children rec (S i) cs'
  end.

(** Modelled from the spec: [ContextNode.iter_nodes(include_dirs)] yields the
    nodes in pre-order, directories optionally left out; the [files] property
    asks for [include_dirs=False], the loops below take the default, which
    keeps the directories.  The loops only change settings while they
    iterate, never the shape of the tree, so the sequence is the one of the
    tree the loop starts on. *)
Fixpoint iter_nodes (include_dirs : bool) (n : ContextNode) : list addr :=
  match n with
  | FileNode _ _ _ => [[]]
  | DirectoryNode _ _ cs =>
      (if include_dirs then [[]] else [])
        ++ iter_children (iter_nodes include_dirs) 0 cs
  end.

(** Position of a key in a [children] mapping. *)
Fixpoint child_index (key : string) (cs : list (string * ContextNode)) : option nat :=
  match cs with
  | [] => None
  | (k, _) :: cs' =>
      if decide (k = key) then Some 0%nat else S <$> child_index key cs'
  end.

(** Modelled from the spec: [root[path]] returns the node for [path] if it
    exists in the tree and fails with [KeyError] otherwise ([None] here);
    [add_path] and [remove_path] catch that [KeyError]. *)
Fixpoint getitem (n : ContextNode) (p : Path) : option addr :=
  match p with
  | [] => Some []
  | seg :: rest =>
      match child_index seg (children_of n) with
      | Some i =>
          match children_of n !! i with
          | Some (_, c) => cons i <$> getitem c rest
          | None => None
          end
      | None => None
      end
  end.

(** ** External collaborators and the operations that use them *)

(** A [UserError], by its message. *)
Definition UserError := string.

(** [DiffContext], the diff source's output: the set of paths the diff
    touches, in the order the loop meets them, and the annotations of each. *)
Record DiffContext := mkDiffContext {
  files : list Path;
  get_diff_annotations : Path -> list DiffAnnotation
}.

(** How a call ends: it returns, or an exception leaves it.  The tree is
    shared and mutated in place, so what was written before an exception
    stays written. *)
Inductive Raised :=
| KeyError (p : Path)
| KeyboardInterrupt (context_length max_tokens : Z)
| SystemExit.

Inductive Completion :=
| Returned
| Raise (e : Raised).

(** [context_settings] of the facade. *)
Record ContextSettings := mkContextSettings {
  paths : list Path;
  exclude_paths : list Path;
  no_code_map : bool;
  diff_target : option string;
  pr_diff : option string
}.

(** The [CodeContext] object; [self.config.model()] is kept as a field, and
    [diff_context] is unset until the first refresh. *)
Record CodeContext := mkCodeContext {
  config_model : string;
  root : ContextNode;
  diff_context : option DiffContext;
  context_settings : ContextSettings
}.

(** Python truthiness of an [Optional[int]]: [None] and [0] are false. *)
Definition truthy (max_tokens : option Z) : bool :=
  match max_tokens with
  | Some m => negb (m =? 0)
  | None => false
  end.

(** [sum(...)] over token counts. *)
Definition sumZ (l : list Z) : Z := foldr Z.add 0 l.

Section Collaborators.

(** The token counter: the token cost of a file node's current serialized
    form, for a model identifier. *)
Variable file_tokens : string -> Path -> NodeSettings -> list DiffAnnotation -> Z.

(** [check_ctags_executable()]: [Some e] when it raises [UserError]. *)
Variable check_ctags_executable : option UserError.

(** [get_diff_context(config, diff, pr_diff)]: a [UserError] or the diff. *)
Variable get_diff_context : option string -> option string -> UserError + DiffContext.

(** [DirectoryNode.refresh()]: the re-scan of the file system. *)
Variable tree_refresh : ContextNode -> ContextNode.

(** [Path.exists()] and [Path.is_dir()]. *)
Variable path_exists : Path -> bool.
Variable path_is_dir : Path -> bool.

(** Modelled from the spec: [ContextNode.count_tokens(model, recursive)].
    A file costs what the token counter says of its serialized form; a
    directory contributes nothing itself, and with [recursive] the sum of its
    children's totals. *)
Fixpoint count_tokens (model : string) (recursive : bool) (n : ContextNode) : Z :=
  match n with
  | FileNode p s ann => file_tokens model p s ann
  | DirectoryNode _ _ cs =>
      if recursive
      then sumZ
             ((fun kc => match kc with
                         | (_, c) => count_tokens model recursive c
                         end) <$> cs)
      else 0
  end.

(** [_set_include_paths]: one visit of the loop, and the loop. *)
Definition _set_include_paths_visit (paths exclude_paths : list Path)
    (root : ContextNode) (a : addr) : ContextNode :=
  match node_at a root with
  | Some node =>
      let relative_path := relative_path node in
      if bool_decide (relative_path ∈ paths)
      then update_at a (update_settings [(Key_include, true)] true) root
      else if bool_decide (relative_path ∈ exclude_paths)
      then update_at a (update_settings [(Key_include, false)] true) root
      else root
  | None => root
  end.

Definition _set_include_paths (root : ContextNode) (paths exclude_paths : list Path)
    : ContextNode :=
  foldl (_set_include_paths_visit paths exclude_paths) root (iter_nodes true root).

(** [_set_diff_annotations]: the loop over [diff_context.files].  [root[file]]
    is not guarded: its [KeyError] leaves the function. *)
Fixpoint _set_diff_annotations_loop (diff_context : DiffContext) (todo : list Path)
    (root : ContextNode) : ContextNode * Completion :=
  match todo with
  | [] => (root, Returned)
  | file :: rest =>
      match getitem root file with
      | None => (root, Raise (KeyError file))
      | Some a =>
          let root := update_at a (update_settings [(Key_diff, true)] true) root in
          let root :=
            match node_at a root with
            | Some node =>
                if is_file node
                then update_at a
                       (set_diff_annotations
                          (get_diff_annotations diff_context (relative_path node)))
                       root
                else root
            | None => root
            end in
          _set_diff_annotations_loop diff_context rest root
      end
  end.

Definition _set_diff_annotations (root : ContextNode) (diff_context : DiffContext)
    : ContextNode * Completion :=
  _set_diff_annotations_loop diff_context (files diff_context) root.

(** The last loop of [_set_code_map]: add the feature to the nodes one by
    one until the budget runs out.  It returns the tree and the budget left. *)
Fixpoint _set_code_map_loop (model : string) (_update_feature : SettingKey)
    (todo : list addr) (root : ContextNode) (token_budget : Z) : ContextNode * Z :=
  match todo with
  | [] => (root, token_budget)
  | a :: rest =>
      match node_at a root with
      | None => _set_code_map_loop model _update_feature rest root token_budget
      | Some node =>
          let baseline := count_tokens model false node in
          let root := update_at a (update_settings [(_update_feature, true)] false) root in
          let adjusted :=
            match node_at a root with
            | Some node => count_tokens model false node
            | None => baseline
            end in
          if adjusted - baseline >? token_budget
          then (update_at a (update_settings [(_update_feature, false)] false) root,
                token_budget)
          else _set_code_map_loop model _update_feature rest root
                 (token_budget - (adjusted - baseline))
      end
  end.

(** [_set_code_map].  The messages it prints are not part of the model. *)
Definition _set_code_map (root : ContextNode) (model : string)
    (max_tokens : option Z) : ContextNode :=
  match check_ctags_executable with
  | Some _ => root
  | None =>
      (* Try to include everything *)
      let root :=
        update_settings [(Key_code_map, true); (Key_include_signature, true)] true root in
      let context_length := count_tokens model true root in
      match max_tokens with
      | None => root
      | Some m =>
          if negb (truthy max_tokens) || (context_length <=? m) then root
          else
            (* Otherwise, find the level at which everything fits... *)
            let root := update_settings [(Key_include_signature, false)] true root in
            let context_length := count_tokens model true root in
            let '(root, context_length, _update_feature) :=
              if context_length <? m
              then (root, context_length, Key_include_signature)
              else
                let root := update_settings [(Key_code_map, false)] true root in
                (root, count_tokens model true root, Key_code_map) in
            (* ...then add features to files one-by-one till we run out of space *)
            let token_budget := m - context_length in
            (_set_code_map_loop model _update_feature (iter_nodes true root)
               root token_budget).1
      end
  end.

(** [CodeContext.refresh].  A [UserError] of the diff source is printed and
    followed by [exit()]; the length check raises [KeyboardInterrupt]. *)
Definition refresh (self : CodeContext) (max_tokens : option Z)
    : CodeContext * Completion :=
  (* Check for new and changed files *)
  let root := tree_refresh (root self) in
  let settings := context_settings self in
  (* Apply user settings *)
  match get_diff_context (diff_target settings) (pr_diff settings) with
  | inl e =>
      (mkCodeContext (config_model self) root (diff_context self) settings,
       Raise SystemExit)
  | inr diff_context =>
      let settings :=
        match paths settings with
        | [] => mkContextSettings (files diff_context) (exclude_paths settings)
                  (no_code_map settings) (diff_target settings) (pr_diff settings)
        | _ :: _ => settings
        end in
      let root := _set_include_paths root (paths settings) (exclude_paths settings) in
      match _set_diff_annotations root diff_context with
      | (root, Raise e) =>
          (mkCodeContext (config_model self) root (Some diff_context) settings, Raise e)
      | (root, Returned) =>
          (* Validate length *)
          let context_length := count_tokens (config_model self) true root in
          let exceeded :=
            match max_tokens with
            | Some m => if truthy max_tokens && (context_length >? m) then Some m else None
            | None => None
            end in
          match exceeded with
          | Some m =>
              (mkCodeContext (config_model self) root (Some diff_context) settings,
               Raise (KeyboardInterrupt context_length m))
          | None =>
              (* Fill-in extra space with code_map *)
              if negb (no_code_map settings)
              then (mkCodeContext (config_model self)
                      (_set_code_map root (config_model self) max_tokens)
                      (Some diff_context) settings, Returned)
              else (mkCodeContext (config_model self) root (Some diff_context) settings,
                    Returned)
          end
      end
  end.

(** Modelled from the spec: [get_node(path, parent)] makes the node for a
    path, a directory node or a file node as the file system has it, with the
    settings of its new parent. *)
Definition get_node (part : string) (parent : ContextNode) : ContextNode :=
  if path_is_dir [part]
  then DirectoryNode [part] (settings_of parent) []
  else FileNode [part] (settings_of parent) [].

(** [if part not in _cursor.children: _cursor.children[part] = get_node(part, _cursor)] *)
Definition add_child (part : string) (_cursor : ContextNode) : ContextNode :=
  match _cursor with
  | FileNode _ _ _ => _cursor
  | DirectoryNode p s cs =>
      match child_index part cs with
      | Some _ => _cursor
      | None => DirectoryNode p s (cs ++ [(part, get_node part _cursor)])
      end
  end.

(** The loop of the [except KeyError] branch of [add_path].  [_cursor] is
    bound to the root before the loop and no statement of the loop assigns
    it again. *)
Definition add_path_loop (root : ContextNode) (relative_paths : list string)
    : ContextNode :=
  let _cursor : addr := [] in
  foldl (fun root part => update_at _cursor (add_child part) root) root relative_paths.

(** [CodeContext.add_path] *)
Definition add_path (self : CodeContext) (path : Path) : CodeContext :=
  if negb (path_exists path) then self
  else
    match getitem (root self) path with
    | Some a =>
        match node_at a (root self) with
        | Some node =>
            if include (settings_of node) then self
            else mkCodeContext (config_model self)
                   (update_at a (update_settings [(Key_include, true)] true) (root self))
                   (diff_context self) (context_settings self)
        | None => self
        end
    | None =>
        (* Add an ignored file/dir to context *)
        mkCodeContext (config_model self) (add_path_loop (root self) path)
          (diff_context self) (context_settings self)
    end.

End Collaborators.

(** ** Concrete trees and collaborators for the scenarios *)

Definition default_settings : NodeSettings := mkSettings false false false false.

(** A root directory with three files, none of them included. *)
Definition three_files : ContextNode :=
  DirectoryNode [] default_settings
    [("a.py"%string, FileNode ["a.py"%string] default_settings []);
     ("b.py"%string, FileNode ["b.py"%string] default_settings []);
     ("c.py"%string, FileNode ["c.py"%string] default_settings [])].

(** The same tree with everything included, as after adding the root. *)
Definition included_settings : NodeSettings := mkSettings true false false false.

Definition three_files_included : ContextNode :=
  DirectoryNode [] included_settings
    [("a.py"%string, FileNode ["a.py"%string] included_settings []);
     ("b.py"%string, FileNode ["b.py"%string] included_settings []);
     ("c.py"%string, FileNode ["c.py"%string] included_settings [])].

(** A token counter given by three costs per file: with the full code map,
    with the code map without signatures, and without code map. *)
Definition cost_table (full partial raw : Z)
    (model : string) (p : Path) (s : NodeSettings) (ann : list DiffAnnotation) : Z :=
  if code_map s then (if include_signature s then full else partial) else raw.

(** Scenario 1: 100 per file with the full code map, 60 without signatures. *)
Definition scenario1_tokens := cost_table 100 60 10.

(** Scenario 2: 10 per file of raw content, the code map adds 15. *)
Definition scenario2_tokens := cost_table 100 25 10.

(** One file outside the selection: it costs nothing until it gets a code map. *)
Definition one_file : ContextNode :=
  DirectoryNode [] default_settings
    [("a.py"%string, FileNode ["a.py"%string] default_settings [])].

Definition code_map_only_tokens := cost_table 15 5 0.

(** ** Notions used in the statements *)

(** The shape of a tree: its nodes, paths and keys without settings and
    annotations.  The overlays and the allocator never change it. *)
Fixpoint erase (n : ContextNode) : ContextNode :=
  match n with
  | FileNode p _ _ => FileNode p default_settings []
  | DirectoryNode p _ cs =>
      DirectoryNode p default_settings
        ((fun kc => match kc with (k, c) => (k, erase c) end) <$> cs)
  end.

(** Pre-order on addresses: a node comes before its descendants, and the
    subtree of a child before the subtrees of the children after it. *)
Inductive addr_lt : addr -> addr -> Prop :=
| addr_lt_nil i b : addr_lt [] (i :: b)
| addr_lt_head i j a b : (i < j)%nat -> addr_lt (i :: a) (j :: b)
| addr_lt_tail i a b : addr_lt a b -> addr_lt (i :: a) (i :: b).

(** A property of the settings of every node of a tree. *)
Definition every_node (P : NodeSettings -> Prop) (n : ContextNode) : Prop :=
  forall a m, node_at a n = Some m -> P (settings_of m).

(** The trees of the first three stages of the allocator. *)
Definition stage_a (root : ContextNode) : ContextNode :=
  update_settings [(Key_code_map, true); (Key_include_signature, true)] true root.

Definition stage_b (root : ContextNode) : ContextNode :=
  update_settings [(Key_include_signature, false)] true (stage_a root).

Definition stage_c (root : ContextNode) : ContextNode :=
  update_settings [(Key_code_map, false)] true (stage_b root).

(** The loop starts on nodes that all exist and have the feature off. *)
Definition ready (k : SettingKey) (todo : list addr) (root : ContextNode) : Prop :=
  forall a, a ∈ todo ->
    exists m, node_at a root = Some m /\ get_key k (settings_of m) = false.

(** Committing the feature on the node at an address. *)
Definition commit (feature : SettingKey) (root : ContextNode) (a : addr) : ContextNode :=
  update_at a (update_settings [(feature, true)] false) root.

(** How many leading deltas fit, each one after the others before it were
    taken from the budget. *)
Fixpoint fitting (budget : Z) (deltas : list Z) : nat :=
  match deltas with
  | [] => 0%nat
  | d :: rest => if d >? budget then 0%nat else S (fitting (budget - d) rest)
  end.

Section Deltas.

Variable file_tokens : string -> Path -> NodeSettings -> list DiffAnnotation -> Z.

(** The token delta of the feature for the node at an address: its own count
    with the feature on, minus its own count as it is. *)
Definition feature_delta (model : string) (feature : SettingKey)
    (root : ContextNode) (a : addr) : Z :=
  match node_at a root with
  | Some node =>
      count_tokens file_tokens model false (update_settings [(feature, true)] false node)
        - count_tokens file_tokens model false node
  | None => 0
  end.

End Deltas.

(** The settings [refresh] works with: without explicit include paths, the
    files of the diff become the include list. *)
Definition effective_settings (settings : ContextSettings) (diff_context : DiffContext)
    : ContextSettings :=
  match paths settings with
  | [] => mkContextSettings (files diff_context) (exclude_paths settings)
            (no_code_map settings) (diff_target settings) (pr_diff settings)
  | _ :: _ => settings
  end.

(** The tree [refresh] validates: re-scanned, with the inclusion and the diff
    overlays applied. *)
Definition overlaid (tree_refresh : ContextNode -> ContextNode) (self : CodeContext)
    (diff_context : DiffContext) : ContextNode * Completion :=
  let settings := effective_settings (context_settings self) diff_context in
  _set_diff_annotations
    (_set_include_paths (tree_refresh (root self)) (paths settings)
       (exclude_paths settings))
    diff_context.

(** The monotonicity the allocator expects of the token counter: a file
    without code map and signatures never costs more than the same file with
    any other setting of the two. *)
Definition token_counter_monotone
    (file_tokens : string -> Path -> NodeSettings -> list DiffAnnotation -> Z) : Prop :=
  forall model p s ann,
    file_tokens model p (mkSettings (include s) (diff s) false false) ann
    <= file_tokens model p s ann.

(** Collaborators and contexts for the facade. *)
Definition no_diff (target pr : option string) : UserError + DiffContext :=
  inr (mkDiffContext [] (fun _ => [])).

Definition failing_diff (target pr : option string) : UserError + DiffContext :=
  inl "Invalid treeish"%string.

Definition deleted_file_diff (target pr : option string) : UserError + DiffContext :=
  inr (mkDiffContext [["deleted.py"%string]] (fun _ => [])).

Definition same_files (root : ContextNode) : ContextNode := root.

(** An included file costs 30 tokens, a code map 15. *)
Definition selection_tokens (model : string) (p : Path) (s : NodeSettings)
    (ann : list DiffAnnotation) : Z :=
  if include s then 30 else if code_map s then 15 else 0.

Definition one_file_context : CodeContext :=
  mkCodeContext "gpt-4" one_file None
    (mkContextSettings [["a.py"%string]] [] false None None).

Definition three_files_context : CodeContext :=
  mkCodeContext "gpt-4" three_files None (mkContextSettings [] [] false None None).

Definition empty_root : ContextNode := DirectoryNode [] default_settings [].

Definition empty_context : CodeContext :=
  mkCodeContext "gpt-4" empty_root None (mkContextSettings [] [] false None None).

Definition everything_exists (p : Path) : bool := true.

Definition vendor_is_dir (p : Path) : bool := bool_decide (p = ["vendor"%string]).

(** ** The rest of the facade *)

(** What [remove_path] prints. *)
Inductive RemoveReport :=
| AlreadyExcluded (p : Path)
| FileExcluded (p : Path)
| NotInContext (p : Path).

(** [CodeContext.remove_path]: the context it leaves and the message it
    prints.  A node that is not included only gets the message (its text in
    the source is "File already included"); an included node is excluded with
    all its descendants; a path without a node is reported. *)
Definition remove_path (self : CodeContext) (path : Path) : CodeContext * RemoveReport :=
  match getitem (root self) path with
  | Some a =>
      match node_at a (root self) with
      | Some node =>
          if negb (include (settings_of node))
          then (self, AlreadyExcluded (relative_path node))
          else (mkCodeContext (config_model self)
                  (update_at a (update_settings [(Key_include, false)] true) (root self))
                  (diff_context self) (context_settings self),
                FileExcluded (relative_path node))
      | None => (self, NotInContext path)
      end
  | None => (self, NotInContext path)
  end.

(** The [files] property of [CodeContext]: the paths of the included file
    nodes, in tree order. *)
Definition CodeContext_files (self : CodeContext) : list Path :=
  omap (fun a =>
          match node_at a (root self) with
          | Some f => if include (settings_of f) then Some (node_path f) else None
          | None => None
          end)
       (iter_nodes false (root self)).

(** [diff_annotations] of a file node. *)
Definition annotations_of (n : ContextNode) : list DiffAnnotation :=
  match n with
  | FileNode _ _ ann => ann
  | DirectoryNode _ _ _ => []
  end.

(** Two trees have the same nodes, and the node at each address of the one
    is related to the node at that address of the other. *)
Definition related (R : ContextNode -> ContextNode -> Prop) (n n' : ContextNode) : Prop :=
  forall a, option_Forall2 R (node_at a n) (node_at a n').

(** Two nodes of the same kind with the same path and annotations, whose
    settings agree on every key outside [ks]. *)
Definition same_outside (ks : list SettingKey) (m m' : ContextNode) : Prop :=
  node_path m' = node_path m
  /\ is_file m' = is_file m
  /\ annotations_of m' = annotations_of m
  /\ forall k, k ∉ ks -> get_key k (settings_of m') = get_key k (settings_of m).

(** What the diff annotator may do to a node: switch [diff] on and replace
    the annotations. *)
Definition diff_only_grows (m m' : ContextNode) : Prop :=
  node_path m' = node_path m
  /\ is_file m' = is_file m
  /\ (forall k, k ≠ Key_diff -> get_key k (settings_of m') = get_key k (settings_of m))
  /\ (diff (settings_of m) = true -> diff (settings_of m') = true).

(** One pass of the annotator's loop body, for a file that has a node. *)
Definition annotate (dc : DiffContext) (a : addr) (root : ContextNode) : ContextNode :=
  let root := update_at a (update_settings [(Key_diff, true)] true) root in
  match node_at a root with
  | Some node =>
      if is_file node
      then update_at a
             (set_diff_annotations (get_diff_annotations dc (relative_path node))) root
      else root
  | None => root
  end.

(** What the annotator has done to the node of a file of the diff. *)
Definition marked (dc : DiffContext) (a : addr) (root : ContextNode) : Prop :=
  exists node, node_at a root = Some node
    /\ every_node (fun s => diff s = true) node
    /\ (is_file node = true ->
        annotations_of node = get_diff_annotations dc (relative_path node)).

Definition b_file_diff (target pr : option string) : UserError + DiffContext :=
  inr (mkDiffContext [["b.py"%string]] (fun _ => [])).

(** A later call of [refresh] on the same context: what the collaborators
    answer at that time, and the ceiling the caller passes. *)
Record RefreshCall := mkRefreshCall {
  call_file_tokens : string -> Path -> NodeSettings -> list DiffAnnotation -> Z;
  call_check_ctags_executable : option UserError;
  call_get_diff_context : option string -> option string -> UserError + DiffContext;
  call_tree_refresh : ContextNode -> ContextNode;
  call_max_tokens : option Z
}.

(** The context a call of [refresh] leaves, however the call ends. *)
Definition refresh_call (self : CodeContext) (call : RefreshCall) : CodeContext :=
  (refresh (call_file_tokens call) (call_check_ctags_executable call)
     (call_get_diff_context call) (call_tree_refresh call) self (call_max_tokens call)).1.

(** The context after a sequence of calls of [refresh], one after the other. *)
Definition refresh_calls (self : CodeContext) (calls : list RefreshCall) : CodeContext :=
  foldl refresh_call self calls.

(** ** The sampler: [mentat/sampler/sampler.py] *)

(** A chat message, as far as [parse_message] and [create_sample] read it:
    its role and its content.  The content is a string, a list of parts, or
    anything else ([None]); of a part only its ["text"] entry is read, which
    may be missing, a string, or something that is not a string. *)
Inductive PartText :=
| NoText
| TextStr (s : string)
| TextOther.

Inductive MessageContent :=
| ContentStr (s : string)
| ContentList (parts : list PartText)
| ContentOther.

Record Message := mkMessage {
  role : string;
  content : MessageContent
}.

(** The result of [parse_message]: the dict with ["text"] and ["code"], or
    the [IndexError] of [output[-1]] on an empty list. *)
Inductive ParseResult :=
| Parsed (text code : string)
| IndexError.

(** The line feed of ["\n".join(output)]. *)
Definition newline : string := String (Ascii.ascii_of_nat 10) EmptyString.

(** [while output[-1] == "": output.pop()], on the list read from its end:
    the loop drops the last element as long as it is the empty string and
    raises [IndexError] ([None]) when no element is left to look at. *)
Fixpoint pop_empty_lines (reversed_output : list string) : option (list string) :=
  match reversed_output with
  | [] => None
  | last :: before =>
      if String.eqb last "" then pop_empty_lines before else Some reversed_output
  end.

Section Parser.

(** [ctx.config.parser._starts_special] and [._ends_code], and Python's
    [str.splitlines]. *)
Variable _starts_special : string -> bool.
Variable _ends_code : string -> bool.
Variable splitlines : string -> list string.

(** The [for line in content.splitlines()] loop of [parse_message]. *)
Fixpoint parse_message_loop (lines : list string) (in_special : bool)
    (output : list string) : list string :=
  match lines with
  | [] => output
  | line :: rest =>
      let in_special := if _starts_special line then true else in_special in
      let output := if negb in_special then output ++ [line] else output in
      let in_special := if _ends_code line then false else in_special in
      parse_message_loop rest in_special output
  end.

(** [parse_message] *)
Definition parse_message (message : Message) : ParseResult :=
  let text := ""%string in
  let code := ""%string in
  match content message with
  | ContentStr content =>
      let text :=
        if negb (String.eqb (role message) "assistant") then content else text in
      let output := parse_message_loop (splitlines content) false [] in
      match pop_empty_lines (reverse output) with
      | None => IndexError
      | Some reversed_output =>
          let text := String.concat newline (reverse reversed_output) in
          Parsed text code
      end
  | ContentList (first :: _) =>
      match first with
      | TextStr s => Parsed s code
      | _ => Parsed text code
      end
  | _ => Parsed text code
  end.

(** An entry of [message_history]. *)
Record HistoryEntry := mkHistoryEntry {
  entry_role : string;
  entry_content : string
}.

(** The loop of [create_sample] over [conversation.get_messages()[::-1]]: it
    returns [message_history], [message_prompt] and [message_edit], or
    [None] when [parse_message] raises. *)
Fixpoint create_sample_messages_loop (reversed_messages : list Message)
    (message_history : list HistoryEntry) (message_prompt message_edit : string)
    : option (list HistoryEntry * string * string) :=
  match reversed_messages with
  | [] => Some (message_history, message_prompt, message_edit)
  | m :: rest =>
      if negb (String.eqb (role m) "user" || String.eqb (role m) "assistant")
      then create_sample_messages_loop rest message_history message_prompt message_edit
      else
        match parse_message m with
        | IndexError => None
        | Parsed text code =>
            if String.eqb message_prompt ""
            then
              if String.eqb (role m) "user"
              then create_sample_messages_loop rest message_history text message_edit
              else if String.eqb (role m) "assistant"
              then create_sample_messages_loop rest message_history message_prompt
                     (message_edit ++ text)
              else create_sample_messages_loop rest message_history message_prompt
                     message_edit
            else create_sample_messages_loop rest
                   (message_history ++ [mkHistoryEntry (role m) (text ++ code)])
                   message_prompt message_edit
        end
  end.

Definition create_sample_messages (messages : list Message)
    : option (list HistoryEntry * string * string) :=
  create_sample_messages_loop (reverse messages) [] "" "".

End Parser.

(** A [FileEdit] of the git parser, as far as [create_sample] reads it; the
    type of its replacements is left open, only whether there are any is
    read. *)
Record FileEdit (Replacement : Type) := mkFileEdit {
  file_path : Path;
  rename_file_path : option Path;
  is_creation : bool;
  is_deletion : bool;
  replacements : list Replacement
}.

Arguments mkFileEdit {Replacement}.
Arguments file_path {Replacement}.
Arguments rename_file_path {Replacement}.
Arguments is_creation {Replacement}.
Arguments is_deletion {Replacement}.
Arguments replacements {Replacement}.

Section SampleContext.

Context {Replacement : Type}.

(** [_rp]: the path relative to the working directory, as a posix string. *)
Variable _rp : Path -> string.

Definition rename_path_of (file_edit : FileEdit Replacement) : string :=
  match rename_file_path file_edit with
  | None => ""
  | Some p => _rp p
  end.

(** Python truthiness of a string and of a list. *)
Definition nonempty_string (s : string) : bool := negb (String.eqb s "").

Definition nonempty_list {A} (l : list A) : bool :=
  match l with [] => false | _ :: _ => true end.

(** One pass of the loop "Undo adds/removes/renames to match pre-diff_edit
    state" of [create_sample]. *)
Definition undo_file_edit (context : gset string) (file_edit : FileEdit Replacement)
    : gset string :=
  let file_path := _rp (file_path file_edit) in
  let rename_path := rename_path_of file_edit in
  let context :=
    if is_deletion file_edit || nonempty_string rename_path
       || nonempty_list (replacements file_edit)
    then {[file_path]} ∪ context else context in
  let context :=
    if is_creation file_edit && bool_decide (file_path ∈ context)
    then context ∖ {[file_path]} else context in
  let context :=
    if nonempty_string rename_path && bool_decide (rename_path ∈ context)
    then context ∖ {[rename_path]} else context in
  context.

Definition create_sample_context (context : gset string)
    (file_edits : list (FileEdit Replacement)) : gset string :=
  foldl undo_file_edit context file_edits.

End SampleContext.

(** Collaborators for the sampler's scenarios: special blocks fenced by
    [@@start] and [@@end], and lines separated by line feeds. *)
Definition starts_fence (line : string) : bool := String.prefix "@@start" line.
Definition ends_fence (line : string) : bool := String.prefix "@@end" line.

Fixpoint split_lf (s : string) (line : string) : list string :=
  match s with
  | EmptyString => if String.eqb line "" then [] else [line]
  | String c rest =>
      if Ascii.eqb c (Ascii.ascii_of_nat 10)
      then line :: split_lf rest ""
      else split_lf rest (line ++ String c EmptyString)
  end.

Definition lf_lines (s : string) : list string := split_lf s "".

(** The roles [create_sample] looks at. *)
Definition user_or_assistant (m : Message) : bool :=
  String.eqb (role m) "user" || String.eqb (role m) "assistant".

(** Edits for the scenarios of the context loop: [old.py] is changed,
    [new.py] is created, [a.py] is renamed to [b.py]. *)
Definition posix (p : Path) : string := String.concat "/" p.

Definition change_old : FileEdit nat := mkFileEdit ["old.py"%string] None false false [1%nat].
Definition create_new : FileEdit nat := mkFileEdit ["new.py"%string] None true false [1%nat].
Definition rename_a_to_b : FileEdit nat :=
  mkFileEdit ["a.py"%string] (Some ["b.py"%string]) false false [].

(** * Properties *)

(** ** Induction on the tree *)

Lemma ContextNode_nested_ind (P : ContextNode -> Prop) :
  (forall p s ann, P (FileNode p s ann)) ->
  (forall p s cs, Forall (fun kc => P kc.2) cs -> P (DirectoryNode p s cs)) ->
  forall n, P n.
Proof.
  intros Hfile Hdir. fix IH 1. intros [p s ann | p s cs]; [apply Hfile |].
  apply Hdir. induction cs as [| [k c] cs IHcs]; constructor; [apply IH | apply IHcs].
Qed.

(** ** What a settings update leaves alone *)

Lemma settings_of_update_settings u rec n :
  settings_of (update_settings u rec n) = apply_update u (settings_of n).
Proof. by destruct n. Qed.

Lemma children_of_update_settings_nonrec u n :
  children_of (update_settings u false n) = children_of n.
Proof. by destruct n. Qed.

Lemma shallow_update_settings u rec n :
  shallow (update_settings u rec n) = update_settings u false (shallow n).
Proof. by destruct n. Qed.

Lemma get_key_set_key k v s : get_key k (set_key k v s) = v.
Proof. by destruct k. Qed.

Lemma get_key_set_key_ne k k' v s : k ≠ k' -> get_key k' (set_key k v s) = get_key k' s.
Proof. by destruct k, k'. Qed.

Lemma set_key_set_key k v w s : set_key k w (set_key k v s) = set_key k w s.
Proof. by destruct k. Qed.

Lemma set_key_get_key k s : set_key k (get_key k s) s = s.
Proof. by destruct k, s. Qed.

(** Switching a feature on and off again restores a node on which it was off. *)
Lemma update_settings_revert k n :
  get_key k (settings_of n) = false ->
  update_settings [(k, false)] false (update_settings [(k, true)] false n) = n.
Proof.
  intros Hoff. destruct n as [p s ann | p s cs]; simpl in *;
    unfold apply_update; simpl; rewrite set_key_set_key, <- Hoff, set_key_get_key; done.
Qed.

(** ** Reading and writing at an address *)

Lemma node_at_update_at_same a f n :
  node_at a (update_at a f n) = f <$> node_at a n.
Proof.
  revert n. induction a as [| i a IH]; intros n; [done |].
  destruct n as [p s ann | p s cs]; simpl; [done |].
  rewrite list_lookup_alter_eq. destruct (cs !! i) as [[k c] |]; simpl; [apply IH | done].
Qed.

(** A write at [a] is not seen by a read at [b] that does not lie at or
    below [a], except for the descendants the read node owns. *)
Lemma node_at_update_at_off a b f n :
  ¬ a `prefix_of` b ->
  shallow <$> node_at b (update_at a f n) = shallow <$> node_at b n.
Proof.
  revert b n. induction a as [| i a IH]; intros b n Hpre.
  { destruct Hpre. apply prefix_nil. }
  destruct n as [p s ann | p s cs]; [done |].
  destruct b as [| j b]; [done |]. simpl.
  destruct (decide (i = j)) as [-> | Hij].
  - rewrite list_lookup_alter_eq. destruct (cs !! j) as [[k c] |]; simpl; [| done].
    apply IH. intros Hab. apply Hpre. by apply prefix_cons.
  - by rewrite list_lookup_alter_ne.
Qed.

(** A write that keeps the children is seen at its own address only. *)
Lemma node_at_update_at_ne a b f n :
  (forall m, children_of (f m) = children_of m) ->
  a ≠ b ->
  shallow <$> node_at b (update_at a f n) = shallow <$> node_at b n.
Proof.
  intros Hf. revert b n. induction a as [| i a IH]; intros b n Hab.
  { destruct b as [| j b]; [done |]. simpl. by rewrite Hf. }
  destruct n as [p s ann | p s cs]; [done |].
  destruct b as [| j b]; [done |]. simpl.
  destruct (decide (i = j)) as [-> | Hij].
  - rewrite list_lookup_alter_eq. destruct (cs !! j) as [[k c] |]; simpl; [| done].
    apply IH. congruence.
  - by rewrite list_lookup_alter_ne.
Qed.

Lemma update_at_update_at a f g n :
  update_at a g (update_at a f n) = update_at a (g ∘ f) n.
Proof.
  revert n. induction a as [| i a IH]; intros n; [done |].
  destruct n as [p s ann | p s cs]; [done |]. simpl. f_equal.
  rewrite list_alter_alter_eq. apply list_alter_ext; [| done].
  intros [k c] _. simpl. by rewrite IH.
Qed.

Lemma update_at_id a f n :
  (forall m, node_at a n = Some m -> f m = m) -> update_at a f n = n.
Proof.
  revert n. induction a as [| i a IH]; intros n Hf; [by apply Hf |].
  destruct n as [p s ann | p s cs]; [done |]. simpl. f_equal.
  apply list_eq. intros j. destruct (decide (i = j)) as [-> | Hij].
  - rewrite list_lookup_alter_eq. destruct (cs !! j) as [[k c] |] eqn:Hj; [| done].
    simpl. f_equal. f_equal. apply IH. intros m Hm. apply Hf. simpl. by rewrite Hj.
  - by rewrite list_lookup_alter_ne.
Qed.

(** A recursive update of the whole tree reaches every node. *)
Lemma node_at_update_settings_rec u a n :
  node_at a (update_settings u true n) = update_settings u true <$> node_at a n.
Proof.
  revert n. induction a as [| i a IH]; intros n; [done |].
  destruct n as [p s ann | p s cs]; simpl; [done |].
  rewrite list_lookup_fmap. destruct (cs !! i) as [[k c] |]; simpl; [apply IH | done].
Qed.

(** ** The shape is what paths and lookups depend on *)

Lemma node_at_erase a n : node_at a (erase n) = erase <$> node_at a n.
Proof.
  revert n. induction a as [| i a IH]; intros n; [done |].
  destruct n as [p s ann | p s cs]; simpl; [done |].
  rewrite list_lookup_fmap. destruct (cs !! i) as [[k c] |]; simpl; [apply IH | done].
Qed.

Lemma node_path_erase n : node_path (erase n) = node_path n.
Proof. by destruct n. Qed.

Lemma node_path_by_shape a n n' :
  erase n = erase n' -> node_path <$> node_at a n = node_path <$> node_at a n'.
Proof.
  intros He.
  assert (Hp : forall r, node_path <$> node_at a r = node_path <$> node_at a (erase r)).
  { intros r. rewrite node_at_erase. destruct (node_at a r); simpl; [| done].
    by rewrite node_path_erase. }
  by rewrite (Hp n), (Hp n'), He.
Qed.

Lemma erase_update_settings u rec n : erase (update_settings u rec n) = erase n.
Proof.
  induction n as [p s ann | p s cs IH] using ContextNode_nested_ind; [done |]. simpl. f_equal.
  destruct rec; [| done]. rewrite <- list_fmap_compose.
  apply Forall_fmap_ext_1. eapply Forall_impl; [exact IH |].
  intros [k c] Hc. simpl in *. by rewrite Hc.
Qed.

Lemma erase_update_at a f n :
  (forall m, erase (f m) = erase m) -> erase (update_at a f n) = erase n.
Proof.
  intros Hf. revert n. induction a as [| i a IH]; intros n; [apply Hf |].
  destruct n as [p s ann | p s cs]; [done |]. simpl. f_equal.
  apply list_eq. intros j. rewrite !list_lookup_fmap.
  destruct (decide (i = j)) as [-> | Hij].
  - rewrite list_lookup_alter_eq. destruct (cs !! j) as [[k c] |]; simpl; [| done].
    by rewrite IH.
  - by rewrite list_lookup_alter_ne.
Qed.


(** ** The pre-order sequence *)

Lemma elem_of_iter_children rec i cs a :
  a ∈ iter_children rec i cs <->
  exists j k c a', a = (i + j)%nat :: a' /\ cs !! j = Some (k, c) /\ a' ∈ rec c.
Proof.
  revert i. induction cs as [| [k c] cs IH]; intros i; simpl.
  { split; [by intros ?%elem_of_nil | by intros (j & ? & ? & ? & _ & ? & _)]. }
  rewrite elem_of_app, list_elem_of_fmap, IH. split.
  - intros [(a' & -> & Ha') | (j & k' & c' & a' & -> & Hj & Ha')].
    + exists 0%nat, k, c, a'. by rewrite Nat.add_0_r.
    + exists (S j), k', c', a'. split; [f_equal; lia | done].
  - intros (j & k' & c' & a' & -> & Hj & Ha'). destruct j as [| j]; simpl in Hj.
    + left. exists a'. rewrite Nat.add_0_r. by simplify_eq.
    + right. exists j, k', c', a'. split; [f_equal; lia | done].
Qed.

(** Every address the iteration yields is the address of a node... *)
Lemma iter_nodes_valid a n : a ∈ iter_nodes true n -> is_Some (node_at a n).
Proof.
  revert n. induction a as [| i a IH]; intros n Ha; [by eexists |].
  destruct n as [p s ann | p s cs]; simpl in Ha.
  { apply list_elem_of_singleton in Ha. done. }
  apply elem_of_cons in Ha as [? | Ha]; [done |].
  apply elem_of_iter_children in Ha as (j & k & c & a' & Heq & Hj & Ha').
  simpl in Heq. simplify_eq. simpl. rewrite Hj. by apply IH.
Qed.

(** ... and every node is yielded. *)
Lemma iter_nodes_complete a n : is_Some (node_at a n) -> a ∈ iter_nodes true n.
Proof.
  revert n. induction a as [| i a IH]; intros n Ha.
  { destruct n; simpl; apply elem_of_cons; by left. }
  destruct n as [p s ann | p s cs]; simpl in Ha; [by destruct Ha |].
  destruct (cs !! i) as [[k c] |] eqn:Hi; [| by destruct Ha].
  simpl. apply elem_of_cons. right. apply elem_of_iter_children.
  exists i, k, c, a. split; [done |]. split; [done |]. by apply IH.
Qed.

Lemma addr_lt_not_prefix a b : addr_lt a b -> ¬ b `prefix_of` a.
Proof.
  induction 1 as [i b | i j a b Hij | i a b Hab IH]; intros Hpre.
  - by apply prefix_nil_not in Hpre.
  - apply prefix_cons_inv_1 in Hpre. lia.
  - by apply prefix_cons_inv_2 in Hpre.
Qed.

Lemma addr_lt_ne a b : addr_lt a b -> a ≠ b.
Proof. intros Hlt ->. by apply (addr_lt_not_prefix _ _ Hlt). Qed.

Lemma iter_children_sorted i cs :
  Forall (fun kc => StronglySorted addr_lt (iter_nodes true kc.2)) cs ->
  StronglySorted addr_lt (iter_children (iter_nodes true) i cs).
Proof.
  intros Hcs. revert i. induction Hcs as [| [k c] cs Hc Hcs IH]; intros i; simpl.
  { constructor. }
  apply StronglySorted_app_2.
  - intros x y (a' & -> & _)%list_elem_of_fmap
      (j & k' & c' & b' & -> & _ & _)%elem_of_iter_children.
    apply addr_lt_head. lia.
  - eapply (StronglySorted_fmap _ addr_lt); [| exact Hc].
    intros x y Hxy. by apply addr_lt_tail.
  - apply IH.
Qed.

(** The iteration is in pre-order. *)
Lemma iter_nodes_sorted n : StronglySorted addr_lt (iter_nodes true n).
Proof.
  induction n as [p s ann | p s cs IH] using ContextNode_nested_ind; simpl.
  { repeat constructor. }
  constructor; [by apply iter_children_sorted |].
  apply Forall_forall. intros a (j & k & c & a' & -> & _)%elem_of_iter_children.
  constructor.
Qed.

Lemma iter_nodes_erase n n' :
  erase n = erase n' -> iter_nodes true n = iter_nodes true n'.
Proof.
  revert n'. induction n as [p s ann | p s cs IH] using ContextNode_nested_ind; intros [p' s' ann' | p' s' cs'] He;
    try done.
  simpl in *. f_equal. injection He as _ He. clear p p' s s'.
  generalize 0%nat. revert cs' He.
  induction IH as [| [k c] cs Hc Hcs IHcs]; intros [| [k' c'] cs'] He i; try done.
  simpl in *. injection He as _ He1 He2. f_equal; [f_equal; by apply Hc | by apply IHcs].
Qed.

Lemma sorted_NoDup (l : list addr) : StronglySorted addr_lt l -> NoDup l.
Proof.
  induction 1 as [| x l Hl IH Hx]; constructor; [| done].
  intros Hin. rewrite Forall_forall in Hx. by apply (addr_lt_ne x x); [apply Hx |].
Qed.

Lemma iter_nodes_NoDup n : NoDup (iter_nodes true n).
Proof. apply sorted_NoDup, iter_nodes_sorted. Qed.

(** ** Every node, after a recursive update of the root *)

Lemma every_node_update_settings_rec k v u n :
  every_node (fun s => get_key k s = v) (update_settings (u ++ [(k, v)]) true n).
Proof.
  intros a m. rewrite node_at_update_settings_rec.
  destruct (node_at a n) as [m' |]; simpl; [| done]. intros [= <-].
  rewrite settings_of_update_settings. unfold apply_update.
  rewrite foldl_app. simpl. apply get_key_set_key.
Qed.

Lemma every_node_update_settings_keep k k' v (b : bool) n :
  k ≠ k' ->
  every_node (fun s => get_key k' s = b) n ->
  every_node (fun s => get_key k' s = b) (update_settings [(k, v)] true n).
Proof.
  intros Hk Hn a m. rewrite node_at_update_settings_rec.
  destruct (node_at a n) as [m' |] eqn:Hm'; simpl; [| done]. intros [= <-].
  rewrite settings_of_update_settings. unfold apply_update. simpl.
  rewrite get_key_set_key_ne by done. by eapply Hn.
Qed.

Lemma sumZ_alter {A} (h : A -> Z) (g : A -> A) i l x :
  l !! i = Some x ->
  sumZ (h <$> alter g i l) = sumZ (h <$> l) + (h (g x) - h x).
Proof.
  revert i. induction l as [| y l IH]; intros [| i] Hi; simplify_eq/=.
  - unfold sumZ. simpl. lia.
  - specialize (IH _ Hi). unfold sumZ in *. simpl. lia.
Qed.

Lemma fitting_sum budget deltas :
  0 <= budget -> sumZ (take (fitting budget deltas) deltas) <= budget.
Proof.
  revert budget. induction deltas as [| d deltas IH]; intros budget Hb; simpl; [done |].
  destruct (d >? budget) eqn:Hd; simpl; [done |].
  assert (0 <= budget - d) as Hb' by lia. specialize (IH _ Hb').
  unfold sumZ in *. simpl. lia.
Qed.

(** ** Token counts under in-place updates *)

Section Allocator.

Variable file_tokens : string -> Path -> NodeSettings -> list DiffAnnotation -> Z.

#[local] Abbreviation count := (count_tokens file_tokens).
#[local] Abbreviation delta := (feature_delta file_tokens).

Lemma count_tokens_shallow model n : count model false n = count model false (shallow n).
Proof. by destruct n. Qed.

Lemma count_tokens_by_shallow model n n' :
  shallow n = shallow n' -> count model false n = count model false n'.
Proof. intros H. by rewrite (count_tokens_shallow _ n), (count_tokens_shallow _ n'), H. Qed.

(** A non-recursive update of one node moves the recursive total by that
    node's own difference. *)
Lemma count_tokens_update_at model u a root node :
  node_at a root = Some node ->
  count model true (update_at a (update_settings u false) root)
  = count model true root
    + (count model false (update_settings u false node) - count model false node).
Proof.
  revert root. induction a as [| i a IH]; intros root Ha.
  { simpl in *. simplify_eq. destruct node; simpl; lia. }
  destruct root as [p s ann | p s cs]; simpl in Ha; [done |].
  destruct (cs !! i) as [[k c] |] eqn:Hi; [| done]. simpl.
  rewrite (sumZ_alter _ _ _ _ _ Hi). simpl. rewrite (IH _ Ha). lia.
Qed.

Lemma feature_delta_ext model k root root' a :
  shallow <$> node_at a root = shallow <$> node_at a root' ->
  delta model k root a = delta model k root' a.
Proof.
  unfold feature_delta. intros H.
  destruct (node_at a root) as [m |], (node_at a root') as [m' |]; simplify_eq/=; [| done].
  f_equal; apply count_tokens_by_shallow; [| done].
  by rewrite !shallow_update_settings, H.
Qed.

(** ** The loop that adds the feature back *)

(** Committing a feature keeps the shape, hence the sequence of nodes. *)
Lemma commit_iter_nodes k root a :
  iter_nodes true (commit k root a) = iter_nodes true root.
Proof.
  apply iter_nodes_erase, erase_update_at. intros m. apply erase_update_settings.
Qed.

Lemma ready_commit k a (todo : list addr) root :
  a ∉ todo -> ready k todo root -> ready k todo (commit k root a).
Proof.
  intros Ha Hready b Hb. destruct (Hready b Hb) as (m & Hm & Hoff).
  assert (a ≠ b) as Hab by (intros ->; done).
  pose proof (node_at_update_at_ne a b (update_settings [(k, true)] false) root
                (children_of_update_settings_nonrec _) Hab) as Hsh.
  fold (commit k root a) in Hsh. rewrite Hm in Hsh.
  destruct (node_at b (commit k root a)) as [m' |]; simplify_eq/=.
  exists m'. split; [done |]. rewrite <- Hoff. by destruct m, m'; simplify_eq/=.
Qed.

Lemma delta_commit model k a (todo : list addr) root :
  a ∉ todo ->
  delta model k (commit k root a) <$> todo = delta model k root <$> todo.
Proof.
  intros Ha. apply list_fmap_ext. intros _ b Hb%list_elem_of_lookup_2.
  apply feature_delta_ext, node_at_update_at_ne.
  - apply children_of_update_settings_nonrec.
  - intros ->. done.
Qed.

(** The loop upgrades exactly the nodes of the longest prefix of the sequence
    whose deltas fit one after the other, and leaves the tree as it was
    everywhere else; the budget left is what these deltas did not use. *)
Lemma _set_code_map_loop_prefix model k (todo : list addr) root budget :
  NoDup todo ->
  ready k todo root ->
  let n := fitting budget (delta model k root <$> todo) in
  _set_code_map_loop file_tokens model k todo root budget
  = (foldl (commit k) root (take n todo),
     budget - sumZ (take n (delta model k root <$> todo))).
Proof.
  intros Hnd. revert root budget.
  induction Hnd as [| a todo Ha Hnd IH]; intros root budget Hready; simpl.
  { f_equal. unfold sumZ. simpl. lia. }
  destruct (Hready a) as (m & Hm & Hoff); [by left |].
  rewrite Hm, node_at_update_at_same, Hm. simpl.
  assert (delta model k root a
          = count model false (update_settings [(k, true)] false m) - count model false m)
    as Hd by (unfold feature_delta; by rewrite Hm).
  rewrite <- Hd. destruct (delta model k root a >? budget) eqn:Hfit; simpl.
  - f_equal; [| unfold sumZ; simpl; lia].
    rewrite update_at_update_at. apply update_at_id. intros m' Hm'. simpl.
    apply update_settings_revert. by simplify_eq.
  - fold (commit k root a). rewrite IH.
    + rewrite (delta_commit _ _ _ _ _ Ha). f_equal. symmetry. apply Z.sub_add_distr.
    + apply ready_commit; [done |]. intros b Hb. apply Hready. by right.
Qed.

(** The recursive total after committing a set of distinct nodes. *)
Lemma count_tokens_foldl_commit model k (todo : list addr) root :
  NoDup todo ->
  ready k todo root ->
  count model true (foldl (commit k) root todo)
  = count model true root + sumZ (delta model k root <$> todo).
Proof.
  intros Hnd. revert root.
  induction Hnd as [| a todo Ha Hnd IH]; intros root Hready; simpl.
  { unfold sumZ. simpl. lia. }
  destruct (Hready a) as (m & Hm & Hoff); [by left |].
  rewrite IH.
  - rewrite (delta_commit _ _ _ _ _ Ha). unfold commit at 1.
    rewrite (count_tokens_update_at _ _ _ _ _ Hm).
    unfold feature_delta at 2. rewrite Hm. unfold sumZ. simpl.
    symmetry. apply Z.add_assoc.
  - apply ready_commit; [done |]. intros b Hb. apply Hready. by right.
Qed.

Lemma ready_take k n todo root : ready k todo root -> ready k (take n todo) root.
Proof. intros H a Ha. apply H. by apply (subseteq_take n todo). Qed.

(** The loop never spends more than a nonnegative budget. *)
Lemma _set_code_map_loop_total model k (todo : list addr) root budget :
  NoDup todo ->
  ready k todo root ->
  0 <= budget ->
  count model true (_set_code_map_loop file_tokens model k todo root budget).1
  <= count model true root + budget.
Proof.
  intros Hnd Hready Hb. rewrite _set_code_map_loop_prefix by done. simpl.
  rewrite count_tokens_foldl_commit.
  - rewrite fmap_take. apply Z.add_le_mono_l, fitting_sum, Hb.
  - eapply sublist_NoDup; [done | apply sublist_take].
  - by apply ready_take.
Qed.

Lemma ready_every_node k root :
  every_node (fun s => get_key k s = false) root -> ready k (iter_nodes true root) root.
Proof.
  intros Hall a Ha. destruct (iter_nodes_valid _ _ Ha) as [m Hm].
  exists m. split; [done |]. by eapply Hall.
Qed.

End Allocator.

(** ** Settings after the loop *)

Lemma settings_of_by_shallow (x y : option ContextNode) :
  shallow <$> x = shallow <$> y -> settings_of <$> x = settings_of <$> y.
Proof.
  destruct x as [m |], y as [m' |]; intros H; simplify_eq/=; [| done].
  f_equal. by destruct m, m'; simplify_eq/=.
Qed.

(** Committing on a set of distinct nodes sets the feature on these nodes
    and changes no other setting of any node. *)
Lemma settings_foldl_commit k (l : list addr) root a :
  NoDup l ->
  settings_of <$> node_at a (foldl (commit k) root l)
  = (fun s => if bool_decide (a ∈ l) then set_key k true s else s)
      <$> (settings_of <$> node_at a root).
Proof.
  intros Hnd. revert root. induction Hnd as [| b l Hb Hnd IH]; intros root; simpl.
  { by destruct (node_at a root). }
  rewrite IH. destruct (decide (a = b)) as [-> | Hab].
  - rewrite (bool_decide_eq_false_2 _ Hb), bool_decide_eq_true_2 by (by left).
    unfold commit. rewrite node_at_update_at_same.
    destruct (node_at b root) as [m |]; simpl; [| done].
    by rewrite settings_of_update_settings.
  - assert (settings_of <$> node_at a (commit k root b) = settings_of <$> node_at a root)
      as ->.
    { apply settings_of_by_shallow, node_at_update_at_ne; [| done].
      apply children_of_update_settings_nonrec. }
    destruct (node_at a root) as [m |]; simpl; [| done]. f_equal.
    destruct (decide (a ∈ l)) as [Hin | Hin].
    + by rewrite !bool_decide_eq_true_2 by (done || by right).
    + rewrite !bool_decide_eq_false_2; [done | | done].
      intros [? | ?]%elem_of_cons; done.
Qed.

Lemma every_node_foldl_commit (P : NodeSettings -> Prop) k (l : list addr) root :
  NoDup l ->
  (forall s, P s -> P (set_key k true s)) ->
  every_node P root -> every_node P (foldl (commit k) root l).
Proof.
  intros Hnd Hk Hroot a m Hm.
  pose proof (settings_foldl_commit k l root a Hnd) as Hs. rewrite Hm in Hs.
  destruct (node_at a root) as [m0 |] eqn:Hm0; simplify_eq/=.
  rewrite Hs. case_bool_decide; [apply Hk |]; by eapply Hroot.
Qed.

(** Where [fitting] stops: every delta before fits what is left at its turn,
    and the delta it stops at, if any, does not. *)
Lemma fitting_fits budget deltas i d :
  (i < fitting budget deltas)%nat ->
  deltas !! i = Some d ->
  d <= budget - sumZ (take i deltas).
Proof.
  revert budget i. induction deltas as [| d0 deltas IH]; intros budget i Hi Hd;
    simpl in *; [lia |].
  destruct (d0 >? budget) eqn:Hd0; [lia |].
  destruct i as [| i]; simpl in *.
  - simplify_eq. unfold sumZ. simpl. lia.
  - assert (i < fitting (budget - d0) deltas)%nat as Hi' by lia.
    specialize (IH _ _ Hi' Hd). unfold sumZ in *. simpl. lia.
Qed.

Lemma fitting_stops budget deltas d :
  deltas !! fitting budget deltas = Some d ->
  d > budget - sumZ (take (fitting budget deltas) deltas).
Proof.
  revert budget. induction deltas as [| d0 deltas IH]; intros budget Hd;
    simpl in *; [done |].
  destruct (d0 >? budget) eqn:Hd0; simpl in *.
  - simplify_eq. unfold sumZ. simpl. lia.
  - specialize (IH _ Hd). unfold sumZ in *. simpl. lia.
Qed.


(** ** The budget allocator *)

Section AllocatorClaims.

Variable file_tokens : string -> Path -> NodeSettings -> list DiffAnnotation -> Z.

#[local] Abbreviation count := (count_tokens file_tokens).
#[local] Abbreviation delta := (feature_delta file_tokens).
#[local] Abbreviation loop := (_set_code_map_loop file_tokens).

(** With ctags at hand and a ceiling other than 0, the allocator is one of
    three things: Stage A, or the loop on Stage B, or the loop on Stage C. *)
Lemma _set_code_map_cases root model m :
  m ≠ 0 ->
  _set_code_map file_tokens None root model (Some m)
  = if count model true (stage_a root) <=? m then stage_a root
    else if count model true (stage_b root) <? m
    then (loop model Key_include_signature (iter_nodes true (stage_b root))
            (stage_b root) (m - count model true (stage_b root))).1
    else (loop model Key_code_map (iter_nodes true (stage_c root))
            (stage_c root) (m - count model true (stage_c root))).1.
Proof.
  intros Hm. unfold _set_code_map, truthy. fold (stage_a root).
  destruct (Z.eqb_spec m 0) as [-> | _]; [done |]. simpl.
  destruct (count model true (stage_a root) <=? m); [done |].
  fold (stage_b root). destruct (count model true (stage_b root) <? m); [done |].
  by fold (stage_c root).
Qed.

Lemma stage_b_signatures_off root :
  every_node (fun s => get_key Key_include_signature s = false) (stage_b root).
Proof. apply (every_node_update_settings_rec Key_include_signature false []). Qed.

Lemma stage_c_code_map_off root :
  every_node (fun s => get_key Key_code_map s = false) (stage_c root).
Proof. apply (every_node_update_settings_rec Key_code_map false []). Qed.

Lemma stage_a_code_map_on root :
  every_node (fun s => get_key Key_code_map s = true) (stage_a root).
Proof.
  intros a m. unfold stage_a. rewrite node_at_update_settings_rec.
  destruct (node_at a root) as [m' |]; simpl; [| done]. intros [= <-].
  by rewrite settings_of_update_settings.
Qed.

Lemma stage_a_signatures_on root :
  every_node (fun s => get_key Key_include_signature s = true) (stage_a root).
Proof.
  apply (every_node_update_settings_rec Key_include_signature true [(Key_code_map, true)]).
Qed.

Lemma stage_b_code_map_on root :
  every_node (fun s => get_key Key_code_map s = true) (stage_b root).
Proof.
  apply every_node_update_settings_keep; [done |]. apply stage_a_code_map_on.
Qed.

(** C3.  Stage D visits the nodes in tree pre-order.  It commits the feature
    on a node, and takes the node's own token delta from the budget, as long
    as the delta fits; at the first node whose delta does not fit it undoes
    that node's change and stops.  So the nodes with the feature on are
    exactly a prefix of the pre-order sequence, every delta of the prefix
    fitted at its turn, the delta of the node after the prefix did not, and
    every later node keeps the settings of the baseline. *)
Theorem stage_d_upgrades_preorder_prefix model k root budget :
  every_node (fun s => get_key k s = false) root ->
  let nodes := iter_nodes true root in
  let deltas := delta model k root <$> nodes in
  let n := fitting budget deltas in
  let result := loop model k nodes root budget in
  StronglySorted addr_lt nodes
  /\ result = (foldl (commit k) root (take n nodes), budget - sumZ (take n deltas))
  /\ (forall i d, (i < n)%nat -> deltas !! i = Some d ->
        d <= budget - sumZ (take i deltas))
  /\ (forall d, deltas !! n = Some d -> d > budget - sumZ (take n deltas))
  /\ (forall a, a ∈ take n nodes ->
        settings_of <$> node_at a result.1
        = set_key k true <$> (settings_of <$> node_at a root))
  /\ (forall a, a ∈ drop n nodes ->
        settings_of <$> node_at a result.1 = settings_of <$> node_at a root).
Proof.
  intros Hoff nodes deltas n result.
  pose proof (iter_nodes_NoDup root) as Hnd. fold nodes in Hnd.
  assert (result = (foldl (commit k) root (take n nodes), budget - sumZ (take n deltas)))
    as Hres.
  { apply _set_code_map_loop_prefix; [done |]. by apply ready_every_node. }
  assert (NoDup (take n nodes)) as Hndn.
  { eapply sublist_NoDup; [exact Hnd | apply sublist_take]. }
  split; [apply iter_nodes_sorted |]. split; [done |].
  split; [apply fitting_fits |]. split; [apply fitting_stops |].
  rewrite Hres. simpl. split; intros a Ha.
  - rewrite (settings_foldl_commit k _ root a Hndn).
    by rewrite bool_decide_eq_true_2 by done.
  - rewrite (settings_foldl_commit k _ root a Hndn).
    rewrite bool_decide_eq_false_2; [by destruct (node_at a root) |].
    intros Ha'. rewrite <- (take_drop n nodes) in Hnd.
    apply NoDup_app in Hnd as (_ & Hdisj & _). by apply (Hdisj a).
Qed.

(** C1, amended.  With ctags at hand, for every positive ceiling that is at
    least the total of the Stage C baseline, the total of the tree the
    allocator leaves is at most the ceiling. *)
Theorem allocator_safety_positive_ceiling root model m :
  0 < m ->
  count model true (stage_c root) <= m ->
  count model true (_set_code_map file_tokens None root model (Some m)) <= m.
Proof.
  intros Hpos Hc. rewrite _set_code_map_cases by lia.
  destruct (Z.leb_spec (count model true (stage_a root)) m) as [Ha | Ha]; [done |].
  destruct (Z.ltb_spec (count model true (stage_b root)) m) as [Hb | Hb].
  - etrans; [apply _set_code_map_loop_total |]; try lia.
    + apply iter_nodes_NoDup.
    + apply ready_every_node, stage_b_signatures_off.
  - etrans; [apply _set_code_map_loop_total |]; try lia.
    + apply iter_nodes_NoDup.
    + apply ready_every_node, stage_c_code_map_off.
Qed.

(** C2, amended.  When the Stage A total exceeds a ceiling other than 0 and
    the Stage B total is strictly below the ceiling, the allocator keeps
    Stage B as the baseline and goes on to Stage D with [include_signature]
    as the feature: every node ends with [code_map=True], the nodes of the
    pre-order prefix whose deltas fit the budget left by Stage B end with
    [include_signature=True], and all the other nodes with
    [include_signature=False]. *)
Theorem stage_b_then_signatures_added_back root model m :
  m ≠ 0 ->
  count model true (stage_a root) > m ->
  count model true (stage_b root) < m ->
  let base := stage_b root in
  let nodes := iter_nodes true base in
  let n := fitting (m - count model true base)
             (delta model Key_include_signature base <$> nodes) in
  let result := _set_code_map file_tokens None root model (Some m) in
  result = foldl (commit Key_include_signature) base (take n nodes)
  /\ every_node (fun s => code_map s = true) result
  /\ (forall a node, node_at a result = Some node ->
        include_signature (settings_of node) = bool_decide (a ∈ take n nodes)).
Proof.
  intros Hm Ha Hb base nodes n result.
  pose proof (iter_nodes_NoDup base) as Hnd. fold nodes in Hnd.
  assert (NoDup (take n nodes)) as Hndn.
  { eapply sublist_NoDup; [exact Hnd | apply sublist_take]. }
  assert (result = foldl (commit Key_include_signature) base (take n nodes)) as Hres.
  { unfold result. rewrite _set_code_map_cases by done.
    destruct (Z.leb_spec (count model true (stage_a root)) m); [lia |].
    destruct (Z.ltb_spec (count model true (stage_b root)) m); [| lia].
    fold base nodes. rewrite _set_code_map_loop_prefix; [done | done |].
    apply ready_every_node, stage_b_signatures_off. }
  split; [done |]. rewrite Hres. split.
  - apply (every_node_foldl_commit (fun s => get_key Key_code_map s = true));
      [done | done |]. apply stage_b_code_map_on.
  - intros a node Hnode.
    pose proof (settings_foldl_commit Key_include_signature _ base a Hndn) as Hs.
    rewrite Hnode in Hs. destruct (node_at a base) as [m0 |] eqn:Hm0; simplify_eq/=.
    rewrite Hs. pose proof (stage_b_signatures_off root a m0 Hm0) as Hoff. simpl in Hoff.
    by case_bool_decide.
Qed.

(** C5.  When the ctags check fails, [_set_code_map] returns the tree as it
    was handed over, whatever the model and the ceiling: no setting and no
    token count changes, and nothing is raised. *)
Theorem _set_code_map_without_ctags (e : UserError) root model max_tokens :
  _set_code_map file_tokens (Some e) root model max_tokens = root
  /\ count model true (_set_code_map file_tokens (Some e) root model max_tokens)
     = count model true root.
Proof. done. Qed.

End AllocatorClaims.

(** C1 as stated fails at the ceiling 0: the allocator takes 0 for "no
    ceiling" and accepts Stage A.  One file outside the selection, whose code
    map costs 15 tokens: the Stage C baseline is 0, the final total is 15. *)
Lemma allocator_safety_fails_at_zero :
  0 <= 0
  /\ count_tokens code_map_only_tokens "gpt-4" true (stage_c one_file) <= 0
  /\ ¬ (count_tokens code_map_only_tokens "gpt-4" true
          (_set_code_map code_map_only_tokens None one_file "gpt-4" (Some 0)) <= 0).
Proof. split; [lia |]. split; by vm_compute. Qed.

Lemma allocator_safety_witness :
  0 < 50
  /\ count_tokens scenario2_tokens "gpt-4" true (stage_c three_files) <= 50
  /\ count_tokens scenario2_tokens "gpt-4" true
       (_set_code_map scenario2_tokens None three_files "gpt-4" (Some 50)) <= 50.
Proof.
  assert (0 < 50) as Hpos by lia.
  assert (count_tokens scenario2_tokens "gpt-4" true (stage_c three_files) <= 50) as Hc
    by (by vm_compute).
  split; [exact Hpos |]. split; [exact Hc |].
  exact (allocator_safety_positive_ceiling scenario2_tokens three_files "gpt-4" 50 Hpos Hc).
Defined.

(** C2 as stated fails on the first scenario of the specification: Stage A
    costs 300 and Stage B 180 under the ceiling 250, and the allocator goes on
    to give [a.py] its signatures back. *)
Lemma stage_b_is_not_final_in_scenario1 :
  count_tokens scenario1_tokens "gpt-4" true (stage_a three_files) > 250
  /\ count_tokens scenario1_tokens "gpt-4" true (stage_b three_files) <= 250
  /\ ¬ every_node (fun s => code_map s = true /\ include_signature s = false)
         (_set_code_map scenario1_tokens None three_files "gpt-4" (Some 250)).
Proof.
  split; [by vm_compute |]. split; [by vm_compute |]. intros Hall.
  assert (node_at [0%nat]
            (_set_code_map scenario1_tokens None three_files "gpt-4" (Some 250))
          = Some (FileNode ["a.py"%string] (mkSettings false false true true) []))
    as Hnode by reflexivity.
  apply Hall in Hnode as [_ Hsig]. discriminate Hsig.
Qed.

Lemma stage_b_then_signatures_witness :
  250 ≠ 0
  /\ count_tokens scenario1_tokens "gpt-4" true (stage_a three_files) > 250
  /\ count_tokens scenario1_tokens "gpt-4" true (stage_b three_files) < 250
  /\ _set_code_map scenario1_tokens None three_files "gpt-4" (Some 250)
     = foldl (commit Key_include_signature) (stage_b three_files) [[]; [0%nat]].
Proof.
  assert (250 ≠ 0) as Hm by lia.
  assert (count_tokens scenario1_tokens "gpt-4" true (stage_a three_files) > 250) as Ha
    by (by vm_compute).
  assert (count_tokens scenario1_tokens "gpt-4" true (stage_b three_files) < 250) as Hb
    by (by vm_compute).
  split; [exact Hm |]. split; [exact Ha |]. split; [exact Hb |].
  exact (proj1 (stage_b_then_signatures_added_back scenario1_tokens three_files
                  "gpt-4" 250 Hm Ha Hb)).
Defined.

(** The second scenario: from the Stage C baseline with 20 tokens to spare,
    the root and [a.py] are upgraded, [b.py] does not fit, [c.py] is never
    visited, and 5 tokens are left. *)
Lemma stage_d_scenario2_witness :
  every_node (fun s => get_key Key_code_map s = false) (stage_c three_files)
  /\ _set_code_map_loop scenario2_tokens "gpt-4" Key_code_map
       (iter_nodes true (stage_c three_files)) (stage_c three_files) 20
     = (foldl (commit Key_code_map) (stage_c three_files) [[]; [0%nat]], 5).
Proof.
  split; [apply stage_c_code_map_off |].
  exact (proj1 (proj2 (stage_d_upgrades_preorder_prefix scenario2_tokens "gpt-4"
                         Key_code_map (stage_c three_files) 20
                         (stage_c_code_map_off three_files)))).
Defined.

(** ** The inclusion selector *)

(** Iterating lazily while the loop runs meets the same nodes: a visit does
    not change the shape of the tree. *)

Lemma _set_include_paths_visit_erase ps ex root b :
  erase (_set_include_paths_visit ps ex root b) = erase root.
Proof.
  unfold _set_include_paths_visit. destruct (node_at b root) as [m |]; [| done].
  repeat case_bool_decide; try done;
    apply erase_update_at; intros; apply erase_update_settings.
Qed.

Lemma _set_include_paths_visit_iter_nodes ps ex root b :
  iter_nodes true (_set_include_paths_visit ps ex root b) = iter_nodes true root.
Proof. apply iter_nodes_erase, _set_include_paths_visit_erase. Qed.

Lemma _set_include_paths_loop_erase ps ex (l : list addr) root :
  erase (foldl (_set_include_paths_visit ps ex) root l) = erase root.
Proof.
  revert root. induction l as [| b l IH]; intros root; simpl; [done |].
  by rewrite IH, _set_include_paths_visit_erase.
Qed.

(** A visit writes at and below the visited node only. *)
Lemma _set_include_paths_visit_off ps ex root a b :
  ¬ b `prefix_of` a ->
  shallow <$> node_at a (_set_include_paths_visit ps ex root b)
  = shallow <$> node_at a root.
Proof.
  intros Hpre. unfold _set_include_paths_visit.
  destruct (node_at b root) as [m |]; [| done].
  repeat case_bool_decide; try done; by apply node_at_update_at_off.
Qed.

Lemma _set_include_paths_loop_off ps ex (l : list addr) root a :
  Forall (fun b => ¬ b `prefix_of` a) l ->
  shallow <$> node_at a (foldl (_set_include_paths_visit ps ex) root l)
  = shallow <$> node_at a root.
Proof.
  intros Hl. revert root. induction Hl as [| b l Hb Hl IH]; intros root; simpl; [done |].
  by rewrite IH, _set_include_paths_visit_off.
Qed.

(** A node whose path is in the include list ends up included, whatever the
    exclude list holds: the nodes visited after it are not its ancestors. *)
Lemma _set_include_paths_includes root ps ex a node :
  node_at a root = Some node ->
  relative_path node ∈ ps ->
  exists node', node_at a (_set_include_paths root ps ex) = Some node'
    /\ relative_path node' = relative_path node
    /\ include (settings_of node') = true.
Proof.
  intros Hnode Hin. unfold _set_include_paths.
  assert (a ∈ iter_nodes true root) as Ha by (apply iter_nodes_complete; by eexists).
  pose proof (iter_nodes_sorted root) as Hsorted.
  destruct (list_elem_of_split _ _ Ha) as (l1 & l2 & Hsplit). rewrite Hsplit in *.
  apply StronglySorted_app in Hsorted as (_ & _ & Hsorted).
  apply StronglySorted_cons in Hsorted as [Hafter _].
  rewrite foldl_app. simpl.
  set (r1 := foldl (_set_include_paths_visit ps ex) root l1).
  assert (exists m1, node_at a r1 = Some m1 /\ node_path m1 = node_path node)
    as (m1 & Hm1 & Hp1).
  { pose proof (node_path_by_shape a r1 root
                  (_set_include_paths_loop_erase ps ex l1 root)) as Hp.
    rewrite Hnode in Hp. destruct (node_at a r1) as [m1 |]; simplify_eq/=. by exists m1. }
  assert (_set_include_paths_visit ps ex r1 a
          = update_at a (update_settings [(Key_include, true)] true) r1) as Hvisit.
  { unfold _set_include_paths_visit. rewrite Hm1. unfold relative_path in *.
    rewrite Hp1. by rewrite bool_decide_eq_true_2. }
  rewrite Hvisit.
  pose proof (_set_include_paths_loop_off ps ex l2
                (update_at a (update_settings [(Key_include, true)] true) r1) a) as Hoff.
  rewrite node_at_update_at_same, Hm1 in Hoff. simpl in Hoff.
  destruct (node_at a (foldl _ _ l2)) as [node' |].
  - exists node'. split; [done |]. unfold relative_path. rewrite <- Hp1.
    assert (shallow node' = shallow (update_settings [(Key_include, true)] true m1)) as Hsh.
    { assert (Some (shallow node')
              = Some (shallow (update_settings [(Key_include, true)] true m1))) as Heq.
      { apply Hoff. eapply Forall_impl; [exact Hafter |]. intros b.
        apply addr_lt_not_prefix. }
      by injection Heq. }
    by destruct node', m1; simplify_eq/=.
  - exfalso. discriminate Hoff. eapply Forall_impl; [exact Hafter |]. intros b.
    apply addr_lt_not_prefix.
Qed.

(** C8.  A node whose relative path is in the include list and in the
    exclude list is included after [_set_include_paths]: the include list is
    tested first and the exclude list only in the [elif]. *)
Theorem include_list_wins_over_exclude_list root paths exclude_paths a node :
  node_at a root = Some node ->
  relative_path node ∈ paths ->
  relative_path node ∈ exclude_paths ->
  exists node', node_at a (_set_include_paths root paths exclude_paths) = Some node'
    /\ relative_path node' = relative_path node
    /\ include (settings_of node') = true.
Proof. intros Hnode Hin _. by apply _set_include_paths_includes. Qed.

Lemma include_list_wins_witness :
  node_at [1%nat] three_files = Some (FileNode ["b.py"%string] default_settings [])
  /\ ["b.py"%string] ∈ [["a.py"%string]; ["b.py"%string]]
  /\ ["b.py"%string] ∈ [["b.py"%string]]
  /\ exists node',
       node_at [1%nat]
         (_set_include_paths three_files [["a.py"%string]; ["b.py"%string]]
            [["b.py"%string]]) = Some node'
       /\ relative_path node' = ["b.py"%string]
       /\ include (settings_of node') = true.
Proof.
  assert (node_at [1%nat] three_files
          = Some (FileNode ["b.py"%string] default_settings [])) as Hnode by reflexivity.
  assert (["b.py"%string] ∈ [["a.py"%string]; ["b.py"%string]]) as Hin
    by (right; left).
  assert (["b.py"%string] ∈ [["b.py"%string]]) as Hex by left.
  split; [exact Hnode |]. split; [exact Hin |]. split; [exact Hex |].
  exact (include_list_wins_over_exclude_list three_files _ _ _ _ Hnode Hin Hex).
Defined.

(** ** The refresh pipeline *)

Lemma sumZ_fmap_le {A} (f g : A -> Z) (l : list A) :
  Forall (fun x => f x <= g x) l -> sumZ (f <$> l) <= sumZ (g <$> l).
Proof.
  induction 1 as [| x l Hx Hl IH]; [done |]. by apply Z.add_le_mono.
Qed.

(** The diff annotator raises nothing but the [KeyError] of a failed lookup. *)
Lemma _set_diff_annotations_loop_raises dc todo root T e :
  _set_diff_annotations_loop dc todo root = (T, Raise e) -> exists p, e = KeyError p.
Proof.
  revert root. induction todo as [| file rest IH]; intros root; simpl; [done |].
  destruct (getitem root file) as [a |]; [apply IH |].
  intros [= _ <-]. by eexists.
Qed.

(** On a tree without code map and signatures, turning both on and off again
    leaves the tree as it was: Stage C is the tree itself. *)
Lemma stage_c_without_code_map n :
  every_node (fun s => code_map s = false /\ include_signature s = false) n ->
  stage_c n = n.
Proof.
  unfold stage_c, stage_b, stage_a.
  induction n as [p s ann | p s cs IH] using ContextNode_nested_ind; intros Hall.
  - destruct (Hall [] _ eq_refl) as [Hc Hs]. destruct s. simpl in *. by subst.
  - simpl. f_equal.
    + destruct (Hall [] _ eq_refl) as [Hc Hs]. destruct s. simpl in *. by subst.
    + rewrite <- !list_fmap_compose. apply list_eq. intros i.
      rewrite list_lookup_fmap.
      destruct (cs !! i) as [[key c] |] eqn:Hi; [| done]. simpl. do 2 f_equal.
      rewrite Forall_lookup in IH. apply (IH i _ Hi).
      intros a m Hm. apply (Hall (i :: a) m). simpl. by rewrite Hi.
Qed.

Section RefreshClaims.

Variable file_tokens : string -> Path -> NodeSettings -> list DiffAnnotation -> Z.
Variable check_ctags_executable : option UserError.
Variable get_diff_context : option string -> option string -> UserError + DiffContext.
Variable tree_refresh : ContextNode -> ContextNode.

#[local] Abbreviation count := (count_tokens file_tokens).
#[local] Abbreviation run_refresh :=
  (refresh file_tokens check_ctags_executable get_diff_context tree_refresh).

(** Under a monotone token counter the Stage C baseline costs no more than
    the tree the allocator is handed. *)
Lemma stage_c_total_le model root :
  token_counter_monotone file_tokens ->
  count model true (stage_c root) <= count model true root.
Proof.
  intros Hmono.
  induction root as [p s ann | p s cs IH] using ContextNode_nested_ind.
  { apply (Hmono model p s ann). }
  simpl. rewrite <- !list_fmap_compose. apply sumZ_fmap_le.
  eapply Forall_impl; [exact IH |]. intros [k c] Hc. exact Hc.
Qed.

(** What [refresh] does once the diff source has answered and the overlays
    are applied. *)
Lemma refresh_after_overlays self max_tokens dc T :
  get_diff_context (diff_target (context_settings self)) (pr_diff (context_settings self))
    = inr dc ->
  overlaid tree_refresh self dc = (T, Returned) ->
  let settings := effective_settings (context_settings self) dc in
  let model := config_model self in
  run_refresh self max_tokens
  = match max_tokens with
    | Some m =>
        if negb (m =? 0) && (count model true T >? m)
        then (mkCodeContext model T (Some dc) settings,
              Raise (KeyboardInterrupt (count model true T) m))
        else if negb (no_code_map settings)
        then (mkCodeContext model
                (_set_code_map file_tokens check_ctags_executable T model max_tokens)
                (Some dc) settings, Returned)
        else (mkCodeContext model T (Some dc) settings, Returned)
    | None =>
        if negb (no_code_map settings)
        then (mkCodeContext model
                (_set_code_map file_tokens check_ctags_executable T model max_tokens)
                (Some dc) settings, Returned)
        else (mkCodeContext model T (Some dc) settings, Returned)
    end.
Proof.
  intros Hdc Hov settings model. subst settings model.
  unfold refresh, overlaid, effective_settings in *. rewrite Hdc.
  cbv zeta in *. rewrite Hov.
  destruct max_tokens as [m |]; [| done]. unfold truthy.
  by destruct (negb (m =? 0) && (count (config_model self) true T >? m)).
Qed.

(** C4, amended.  Take a refresh whose diff source answers, whose overlays go
    through, and whose selection [T], the re-scanned tree with the inclusion
    and diff overlays applied, carries no code map yet.  For a ceiling other
    than 0: if the total token count of the selection exceeds the ceiling,
    [refresh] raises the exceeds-token-limit condition, a [KeyboardInterrupt],
    and the allocator is not run, the tree stays the selection; if the total
    does not exceed the ceiling, and code map is not disabled, [refresh]
    returns with the tree the allocator made of the selection, and the budget
    the allocator has at Stage C, the ceiling minus the Stage C total, is
    nonnegative, whatever the token counter. *)
Theorem refresh_validates_before_allocating self m dc T :
  get_diff_context (diff_target (context_settings self)) (pr_diff (context_settings self))
    = inr dc ->
  overlaid tree_refresh self dc = (T, Returned) ->
  every_node (fun s => code_map s = false /\ include_signature s = false) T ->
  m ≠ 0 ->
  let settings := effective_settings (context_settings self) dc in
  let model := config_model self in
  (count model true T > m ->
     run_refresh self (Some m)
     = (mkCodeContext model T (Some dc) settings,
        Raise (KeyboardInterrupt (count model true T) m)))
  /\ (count model true T <= m ->
      no_code_map settings = false ->
      run_refresh self (Some m)
      = (mkCodeContext model
           (_set_code_map file_tokens check_ctags_executable T model (Some m))
           (Some dc) settings, Returned)
      /\ 0 <= m - count model true (stage_c T)
      /\ (count model true (stage_a T) > m ->
          count model true (stage_b T) >= m ->
          _set_code_map file_tokens None T model (Some m)
          = (_set_code_map_loop file_tokens model Key_code_map
               (iter_nodes true (stage_c T)) (stage_c T)
               (m - count model true (stage_c T))).1)).
Proof.
  intros Hdc Hov Hpre Hm settings model.
  pose proof (refresh_after_overlays self (Some m) dc T Hdc Hov) as Hr.
  simpl in Hr. fold settings model in Hr.
  destruct (Z.eqb_spec m 0) as [? | _]; [done |]. simpl in Hr. split.
  - intros Hgt. rewrite Hr. destruct (Z.gtb_spec (count model true T) m); [done | lia].
  - intros Hle Hcm. rewrite Hr, Hcm.
    destruct (Z.gtb_spec (count model true T) m); [lia |]. split; [done |].
    rewrite (stage_c_without_code_map T Hpre). split; [lia |].
    intros Ha Hb. rewrite _set_code_map_cases by done.
    destruct (Z.leb_spec (count model true (stage_a T)) m); [lia |].
    destruct (Z.ltb_spec (count model true (stage_b T)) m); [lia |].
    by rewrite (stage_c_without_code_map T Hpre).
Qed.

(** C9, amended.  A [UserError] of the diff source ends [refresh], and the
    process, by [SystemExit], before any overlay is applied.  When the diff
    source answers and the overlays go through, [refresh] either returns or
    raises the exceeds-token-limit condition, the latter only for a ceiling
    other than 0 that the total exceeds; a failing ctags check is not an
    error of [refresh]: it returns with the overlaid tree as it is. *)
Theorem refresh_outcomes self max_tokens :
  match get_diff_context (diff_target (context_settings self))
          (pr_diff (context_settings self)) with
  | inl e =>
      run_refresh self max_tokens
      = (mkCodeContext (config_model self) (tree_refresh (root self))
           (diff_context self) (context_settings self), Raise SystemExit)
  | inr dc =>
      forall T, overlaid tree_refresh self dc = (T, Returned) ->
        ((run_refresh self max_tokens).2 = Returned
         \/ exists m, max_tokens = Some m /\ m ≠ 0
              /\ count (config_model self) true T > m
              /\ (run_refresh self max_tokens).2
                 = Raise (KeyboardInterrupt (count (config_model self) true T) m))
        /\ (forall e, check_ctags_executable = Some e ->
              (run_refresh self max_tokens).2 = Returned ->
              root (run_refresh self max_tokens).1 = T)
  end.
Proof.
  destruct (get_diff_context _ _) as [e | dc] eqn:Hdc.
  { unfold refresh. by rewrite Hdc. }
  intros T Hov. rewrite (refresh_after_overlays self max_tokens dc T Hdc Hov).
  destruct max_tokens as [m |].
  - destruct (Z.eqb_spec m 0) as [-> | Hm]; simpl.
    + split; [left; by destruct (negb _) |].
      intros e ->. by destruct (negb _).
    + destruct (Z.gtb_spec (count (config_model self) true T) m) as [Hgt | Hle]; simpl.
      * split; [| done]. right. exists m. repeat split; [done | lia].
      * split; [left; by destruct (negb _) |]. intros e ->. by destruct (negb _).
  - split; [left; by destruct (negb _) |]. intros e ->. by destruct (negb _).
Qed.

(** C10.  A ceiling of exactly 0 is no ceiling.  [refresh] with
    [max_tokens=0] does what it does without a ceiling and never raises the
    exceeds-token-limit condition, whatever the total is; and with ctags at
    hand [_set_code_map] with [max_tokens=0] accepts Stage A: every node gets
    [code_map=True] and [include_signature=True], as without a ceiling. *)
Theorem zero_ceiling_is_no_ceiling self root model :
  run_refresh self (Some 0) = run_refresh self None
  /\ (forall context_length m,
        (run_refresh self (Some 0)).2 ≠ Raise (KeyboardInterrupt context_length m))
  /\ _set_code_map file_tokens None root model (Some 0)
     = _set_code_map file_tokens None root model None
  /\ _set_code_map file_tokens None root model (Some 0) = stage_a root
  /\ every_node (fun s => code_map s = true /\ include_signature s = true)
       (_set_code_map file_tokens None root model (Some 0)).
Proof.
  assert (forall T m, _set_code_map file_tokens check_ctags_executable T m (Some 0)
                      = _set_code_map file_tokens check_ctags_executable T m None)
    as Hsame.
  { intros T m. unfold _set_code_map. by destruct check_ctags_executable. }
  assert (run_refresh self (Some 0) = run_refresh self None) as Heq.
  { unfold refresh. destruct (get_diff_context _ _) as [e | dc]; [done |].
    destruct (_set_diff_annotations _ _) as [T [| e]]; [| done]. simpl.
    by rewrite Hsame. }
  split; [done |]. split.
  - intros c m. rewrite Heq. unfold refresh.
    destruct (get_diff_context _ _) as [e | dc]; [done |].
    destruct (_set_diff_annotations _ _) as [T [| e]] eqn:Hov; simpl.
    + by destruct (negb _).
    + apply _set_diff_annotations_loop_raises in Hov as [p ->]. done.
  - split; [done |]. split; [done |]. intros a m Hm. split.
    + by apply (stage_a_code_map_on root a m).
    + by apply (stage_a_signatures_on root a m).
Qed.

End RefreshClaims.

(** C4 as stated fails for the configured ceiling 0: the selection costs 30
    tokens, nothing is raised, and the allocator runs. *)
Lemma zero_ceiling_is_not_enforced :
  let T := (overlaid same_files one_file_context (mkDiffContext [] (fun _ => []))).1 in
  count_tokens selection_tokens "gpt-4" true T > 0
  /\ (refresh selection_tokens None no_diff same_files one_file_context (Some 0)).2
     = Returned
  /\ root (refresh selection_tokens None no_diff same_files one_file_context (Some 0)).1
     = _set_code_map selection_tokens None T "gpt-4" (Some 0).
Proof. split; [by vm_compute |]. split; reflexivity. Qed.

Lemma refresh_validates_witness :
  let dc := mkDiffContext [] (fun _ => []) in
  let T := (overlaid same_files one_file_context dc).1 in
  no_diff None None = inr dc
  /\ overlaid same_files one_file_context dc = (T, Returned)
  /\ every_node (fun s => code_map s = false /\ include_signature s = false) T
  /\ 50 ≠ 0
  /\ count_tokens selection_tokens "gpt-4" true T <= 50
  /\ refresh selection_tokens None no_diff same_files one_file_context (Some 50)
     = (mkCodeContext "gpt-4" (_set_code_map selection_tokens None T "gpt-4" (Some 50))
          (Some dc) (context_settings one_file_context), Returned)
  /\ 0 <= 50 - count_tokens selection_tokens "gpt-4" true (stage_c T).
Proof.
  intros dc T.
  assert (no_diff None None = inr dc) as Hdc by reflexivity.
  assert (overlaid same_files one_file_context dc = (T, Returned)) as Hov by reflexivity.
  assert (every_node (fun s => code_map s = false /\ include_signature s = false) T)
    as Hpre.
  { intros a m Hm.
    assert (a ∈ iter_nodes true T) as Ha by (apply iter_nodes_complete; by eexists).
    assert (T = DirectoryNode [] default_settings
                  [("a.py"%string,
                    FileNode ["a.py"%string] (mkSettings true false false false) [])])
      as HT by reflexivity.
    rewrite HT in Ha, Hm. simpl in Ha. rewrite !elem_of_cons in Ha.
    destruct Ha as [-> | [-> | Ha]]; [| | by apply elem_of_nil in Ha];
      by simplify_eq/=. }
  assert (50 ≠ 0) as Hm by lia.
  assert (count_tokens selection_tokens "gpt-4" true T <= 50) as Hle by (by vm_compute).
  split; [exact Hdc |]. split; [exact Hov |]. split; [exact Hpre |].
  split; [exact Hm |]. split; [exact Hle |].
  pose proof (proj2 (refresh_validates_before_allocating selection_tokens None no_diff
                       same_files one_file_context 50 dc T Hdc Hov Hpre Hm)
                Hle eq_refl) as [Hrun [Hbudget _]].
  split; [exact Hrun | exact Hbudget].
Defined.

(** C9 as stated fails when the diff source raises [UserError]: [refresh]
    ends by [SystemExit], which is neither a return nor the exceeds-budget
    condition, and the tree is left without any overlay. *)
Lemma diff_user_error_exits_refresh :
  (refresh selection_tokens None failing_diff same_files one_file_context (Some 100)).2
  = Raise SystemExit
  /\ Raise SystemExit ≠ Returned
  /\ (forall c m, Raise SystemExit ≠ Raise (KeyboardInterrupt c m))
  /\ root (refresh selection_tokens None failing_diff same_files one_file_context
             (Some 100)).1 = one_file.
Proof. repeat split; done. Qed.

Lemma refresh_outcomes_witness :
  let dc := mkDiffContext [] (fun _ => []) in
  root (refresh selection_tokens (Some "ctags not found"%string) no_diff same_files
          one_file_context (Some 50)).1
  = (overlaid same_files one_file_context dc).1.
Proof.
  intros dc.
  exact (proj2 (refresh_outcomes selection_tokens (Some "ctags not found"%string) no_diff
                  same_files one_file_context (Some 50)
                  (overlaid same_files one_file_context dc).1 eq_refl)
           "ctags not found"%string eq_refl eq_refl).
Defined.

(** ** The diff annotator and [add_path] on paths missing from the tree *)

Lemma _set_diff_annotations_missing_node root dc file rest :
  files dc = file :: rest ->
  getitem root file = None ->
  _set_diff_annotations root dc = (root, Raise (KeyError file)).
Proof. intros Hfiles Hnone. unfold _set_diff_annotations. rewrite Hfiles. simpl. by rewrite Hnone. Qed.

(** C6.  The diff touches [deleted.py], which has no node in the tree: the
    lookup [root[file]] fails, [_set_diff_annotations] ends with [KeyError]
    without creating the node, and the [KeyError] leaves [refresh] as well. *)
Theorem _set_diff_annotations_deleted_file :
  let dc := mkDiffContext [["deleted.py"%string]] (fun _ => []) in
  getitem three_files ["deleted.py"%string] = None
  /\ _set_diff_annotations three_files dc
     = (three_files, Raise (KeyError ["deleted.py"%string]))
  /\ (refresh selection_tokens None deleted_file_diff same_files three_files_context
        None).2 = Raise (KeyError ["deleted.py"%string]).
Proof. repeat split; reflexivity. Qed.

(** C7.  [add_path] for the ignored path [vendor/lib.py] on a tree without
    it: the loop never moves its cursor off the root, so [vendor] and
    [lib.py] both become children of the root, [lib.py] is not below
    [vendor], and the path [vendor/lib.py] still has no node. *)
Theorem add_path_does_not_nest :
  let self' :=
    add_path everything_exists vendor_is_dir empty_context
      ["vendor"%string; "lib.py"%string] in
  root self'
  = DirectoryNode [] default_settings
      [("vendor"%string, DirectoryNode ["vendor"%string] default_settings []);
       ("lib.py"%string, FileNode ["lib.py"%string] default_settings [])]
  /\ getitem (root self') ["vendor"%string; "lib.py"%string] = None
  /\ getitem (root self') ["lib.py"%string] = Some [1%nat].
Proof. repeat split; reflexivity. Qed.

(** * Further properties of the code *)

(** ** Reading below a written address *)

Lemma node_at_app a c n : node_at (a ++ c) n = node_at a n ≫= node_at c.
Proof.
  revert n. induction a as [| i a IH]; intros n; simpl; [done |].
  destruct (children_of n !! i) as [[k m] |]; [apply IH | done].
Qed.

Lemma node_at_update_at_below a c f n :
  node_at (a ++ c) (update_at a f n) = node_at a n ≫= (fun m => node_at c (f m)).
Proof.
  revert n. induction a as [| i a IH]; intros n; simpl; [done |].
  destruct n as [p s ann | p s cs]; simpl; [done |].
  rewrite list_lookup_alter_eq. destruct (cs !! i) as [[k m] |]; simpl; [apply IH | done].
Qed.

(** ** Node-wise relations between the tree before and the tree after *)

Section Related.

Variable R : ContextNode -> ContextNode -> Prop.
Hypothesis R_shallow : forall x x', shallow x = shallow x' -> R x x'.

Lemma related_refl n : related R n n.
Proof. intros a. destruct (node_at a n); constructor. by apply R_shallow. Qed.

Lemma related_trans n1 n2 n3 :
  (forall x y z, R x y -> R y z -> R x z) ->
  related R n1 n2 -> related R n2 n3 -> related R n1 n3.
Proof.
  intros Htrans H12 H23 a. specialize (H12 a). specialize (H23 a).
  destruct H12 as [x y Hxy |]; inversion H23; simplify_eq; constructor. eauto.
Qed.

Lemma related_update_at a f n :
  (forall m, related R m (f m)) -> related R n (update_at a f n).
Proof.
  intros Hf b. destruct (decide (a `prefix_of` b)) as [[c ->] | Hpre].
  - rewrite node_at_app, node_at_update_at_below.
    destruct (node_at a n) as [m |]; simpl; [apply Hf | constructor].
  - pose proof (node_at_update_at_off a b f n Hpre) as Hsh.
    destruct (node_at b n) as [x |], (node_at b (update_at a f n)) as [x' |];
      simplify_eq/=; constructor. by apply R_shallow.
Qed.

Lemma related_update_settings u rec n :
  (forall m, R m (update_settings u rec m)) -> related R n (update_settings u rec n).
Proof.
  intros Hu a. destruct rec.
  - rewrite node_at_update_settings_rec. destruct (node_at a n); constructor. apply Hu.
  - destruct a as [| i a]; simpl; [constructor; apply Hu |].
    rewrite children_of_update_settings_nonrec.
    destruct (children_of n !! i) as [[k c] |]; [| constructor].
    apply related_refl.
Qed.

End Related.

(** ** Settings outside the keys of an update *)

Lemma get_key_apply_update_outside k u s :
  (forall kv, kv ∈ u -> kv.1 ≠ k) -> get_key k (apply_update u s) = get_key k s.
Proof.
  unfold apply_update. revert s. induction u as [| [k' v] u IH]; intros s Hu; simpl; [done |].
  rewrite IH.
  - apply get_key_set_key_ne. apply (Hu (k', v)). by left.
  - intros kv Hkv. apply Hu. by right.
Qed.

Lemma same_outside_shallow ks x x' : shallow x = shallow x' -> same_outside ks x x'.
Proof. intros H. by destruct x, x'; simplify_eq/=. Qed.

Lemma same_outside_trans ks x y z :
  same_outside ks x y -> same_outside ks y z -> same_outside ks x z.
Proof.
  intros (Hp & Hf & Ha & Hk) (Hp' & Hf' & Ha' & Hk'). repeat split; try congruence.
  intros k Hks. by rewrite Hk', Hk.
Qed.

Lemma same_outside_update_settings ks u rec m :
  (forall kv, kv ∈ u -> kv.1 ∈ ks) -> same_outside ks m (update_settings u rec m).
Proof.
  intros Hu. repeat split; try by destruct m.
  intros k Hk. rewrite settings_of_update_settings.
  apply get_key_apply_update_outside. intros kv Hkv Heq. apply Hk. rewrite <- Heq.
  by apply Hu.
Qed.

Lemma related_same_outside_update ks u rec a n :
  (forall kv, kv ∈ u -> kv.1 ∈ ks) ->
  related (same_outside ks) n (update_at a (update_settings u rec) n).
Proof.
  intros Hu. apply related_update_at; [apply same_outside_shallow |].
  intros m. apply related_update_settings; [apply same_outside_shallow |].
  intros m'. by apply same_outside_update_settings.
Qed.

Lemma related_foldl {B} (R : ContextNode -> ContextNode -> Prop)
    (step : ContextNode -> B -> ContextNode) (l : list B) n :
  (forall x x', shallow x = shallow x' -> R x x') ->
  (forall x y z, R x y -> R y z -> R x z) ->
  (forall r b, related R r (step r b)) ->
  related R n (foldl step n l).
Proof.
  intros Hsh Htrans Hstep. revert n. induction l as [| b l IH]; intros n; simpl.
  { by apply related_refl. }
  eapply related_trans; [done | apply Hstep | apply IH].
Qed.

(** ** More on the inclusion selector *)

Lemma _set_include_paths_visit_related ps ex root b :
  related (same_outside [Key_include]) root (_set_include_paths_visit ps ex root b).
Proof.
  unfold _set_include_paths_visit.
  destruct (node_at b root) as [m |]; [| apply related_refl, same_outside_shallow].
  repeat case_bool_decide;
    try (apply related_same_outside_update; intros kv ->%list_elem_of_singleton; by left).
  apply related_refl, same_outside_shallow.
Qed.

(** X1.  [_set_include_paths] writes [include] and nothing else: the tree
    keeps its shape, and every node its path, its annotations and its other
    three settings. *)
Theorem _set_include_paths_only_writes_include root paths exclude_paths :
  erase (_set_include_paths root paths exclude_paths) = erase root
  /\ related (same_outside [Key_include]) root
       (_set_include_paths root paths exclude_paths).
Proof.
  split; [apply _set_include_paths_loop_erase |].
  apply related_foldl.
  - apply same_outside_shallow.
  - apply same_outside_trans.
  - intros r b. apply _set_include_paths_visit_related.
Qed.

Lemma _set_include_paths_loop_unlisted ps ex (l : list addr) root :
  (forall a node, node_at a root = Some node ->
     (relative_path node ∉ ps) /\ (relative_path node ∉ ex)) ->
  foldl (_set_include_paths_visit ps ex) root l = root.
Proof.
  intros Hnone. induction l as [| b l IH]; simpl; [done |].
  assert (_set_include_paths_visit ps ex root b = root) as ->; [| done].
  unfold _set_include_paths_visit. destruct (node_at b root) as [m |] eqn:Hm; [| done].
  destruct (Hnone b m Hm) as [Hps Hex].
  by rewrite !bool_decide_eq_false_2.
Qed.

(** X2.  When no node of the tree has its path in either list, in particular
    when both lists are empty, [_set_include_paths] leaves the tree as it
    is. *)
Theorem _set_include_paths_without_match root paths exclude_paths :
  (forall a node, node_at a root = Some node ->
     (relative_path node ∉ paths) /\ (relative_path node ∉ exclude_paths)) ->
  _set_include_paths root paths exclude_paths = root.
Proof. apply _set_include_paths_loop_unlisted. Qed.

(** The visit of a node is the last one that writes to it. *)
Lemma _set_include_paths_last_write root ps ex a node :
  node_at a root = Some node ->
  exists r node1,
    erase r = erase root
    /\ node_at a r = Some node1
    /\ node_path node1 = node_path node
    /\ shallow <$> node_at a (_set_include_paths root ps ex)
       = shallow <$> node_at a (_set_include_paths_visit ps ex r a).
Proof.
  intros Hnode. unfold _set_include_paths.
  assert (a ∈ iter_nodes true root) as Ha by (apply iter_nodes_complete; by eexists).
  pose proof (iter_nodes_sorted root) as Hsorted.
  destruct (list_elem_of_split _ _ Ha) as (l1 & l2 & Hsplit). rewrite Hsplit in *.
  apply StronglySorted_app in Hsorted as (_ & _ & Hsorted).
  apply StronglySorted_cons in Hsorted as [Hafter _].
  rewrite foldl_app. simpl.
  set (r1 := foldl (_set_include_paths_visit ps ex) root l1).
  assert (erase r1 = erase root) as He by apply _set_include_paths_loop_erase.
  pose proof (node_path_by_shape a r1 root He) as Hp. rewrite Hnode in Hp.
  destruct (node_at a r1) as [m1 |] eqn:Hm1; simplify_eq/=.
  exists r1, m1. repeat split; [done | done | done |].
  apply _set_include_paths_loop_off.
  eapply Forall_impl; [exact Hafter |]. intros b. apply addr_lt_not_prefix.
Qed.

(** X3.  A node whose relative path is in the exclude list and not in the
    include list is excluded after [_set_include_paths], whatever was set on
    it or on its ancestors. *)
Theorem _set_include_paths_excludes root paths exclude_paths a node :
  node_at a root = Some node ->
  relative_path node ∉ paths ->
  relative_path node ∈ exclude_paths ->
  exists node', node_at a (_set_include_paths root paths exclude_paths) = Some node'
    /\ relative_path node' = relative_path node
    /\ include (settings_of node') = false.
Proof.
  intros Hnode Hps Hex.
  destruct (_set_include_paths_last_write root paths exclude_paths a node Hnode)
    as (r & m1 & He & Hm1 & Hp1 & Hlast).
  assert (_set_include_paths_visit paths exclude_paths r a
          = update_at a (update_settings [(Key_include, false)] true) r) as Hvisit.
  { unfold _set_include_paths_visit. rewrite Hm1. unfold relative_path in *.
    rewrite Hp1. by rewrite bool_decide_eq_false_2, bool_decide_eq_true_2. }
  rewrite Hvisit, node_at_update_at_same, Hm1 in Hlast. simpl in Hlast.
  destruct (node_at a (_set_include_paths root paths exclude_paths)) as [node' |];
    simplify_eq/=.
  exists node'. split; [done |]. unfold relative_path. rewrite <- Hp1.
  by destruct node', m1; simplify_eq/=.
Qed.

Lemma _set_include_paths_loop_untouched ps ex (l : list addr) root r a :
  erase r = erase root ->
  (forall b node, b `prefix_of` a -> node_at b root = Some node ->
     (relative_path node ∉ ps) /\ (relative_path node ∉ ex)) ->
  shallow <$> node_at a (foldl (_set_include_paths_visit ps ex) r l)
  = shallow <$> node_at a r.
Proof.
  intros He Hnone. revert r He. induction l as [| b l IH]; intros r He; simpl; [done |].
  rewrite IH by (by rewrite _set_include_paths_visit_erase).
  destruct (decide (b `prefix_of` a)) as [Hpre | Hpre];
    [| by apply _set_include_paths_visit_off].
  unfold _set_include_paths_visit.
  pose proof (node_path_by_shape b r root He) as Hp.
  destruct (node_at b r) as [m |]; [| done].
  destruct (node_at b root) as [m0 |] eqn:Hm0; simplify_eq/=.
  destruct (Hnone b m0 Hpre Hm0) as [Hps Hex]. unfold relative_path in *.
  rewrite Hp. by rewrite !bool_decide_eq_false_2.
Qed.

(** X4.  A node keeps all its settings when neither its own path nor the
    path of any of its ancestors is in one of the two lists: only a listed
    node and the nodes below it are written. *)
Theorem _set_include_paths_keeps_unlisted root paths exclude_paths a :
  (forall b node, b `prefix_of` a -> node_at b root = Some node ->
     (relative_path node ∉ paths) /\ (relative_path node ∉ exclude_paths)) ->
  shallow <$> node_at a (_set_include_paths root paths exclude_paths)
  = shallow <$> node_at a root.
Proof.
  intros Hnone. unfold _set_include_paths.
  by apply (_set_include_paths_loop_untouched paths exclude_paths _ root).
Qed.

Lemma _set_include_paths_without_match_witness :
  (forall a node, node_at a three_files = Some node ->
     (relative_path node ∉ [["x.py"%string]]) /\ (relative_path node ∉ [["y.py"%string]]))
  /\ _set_include_paths three_files [["x.py"%string]] [["y.py"%string]] = three_files.
Proof.
  assert (forall a node, node_at a three_files = Some node ->
            (relative_path node ∉ [["x.py"%string]])
            /\ (relative_path node ∉ [["y.py"%string]])) as Hnone.
  { intros a node Hnode.
    assert (a ∈ iter_nodes true three_files) as Ha
      by (apply iter_nodes_complete; by eexists).
    simpl in Ha. rewrite !elem_of_cons in Ha.
    destruct Ha as [-> | [-> | [-> | [-> | Ha]]]]; [| | | | by apply elem_of_nil in Ha];
      simplify_eq/=; split; by intros ?%list_elem_of_singleton. }
  split; [exact Hnone |].
  exact (_set_include_paths_without_match three_files _ _ Hnone).
Defined.

Lemma _set_include_paths_excludes_witness :
  node_at [1%nat] three_files_included
  = Some (FileNode ["b.py"%string] included_settings [])
  /\ include (settings_of (FileNode ["b.py"%string] included_settings [])) = true
  /\ (["b.py"%string] ∉ [[]; ["a.py"%string]])
  /\ ["b.py"%string] ∈ [["b.py"%string]]
  /\ exists node',
       node_at [1%nat]
         (_set_include_paths three_files_included [[]; ["a.py"%string]] [["b.py"%string]])
       = Some node'
       /\ relative_path node' = ["b.py"%string]
       /\ include (settings_of node') = false.
Proof.
  assert (node_at [1%nat] three_files_included
          = Some (FileNode ["b.py"%string] included_settings [])) as Hnode by reflexivity.
  assert (["b.py"%string] ∉ [[]; ["a.py"%string]]) as Hps.
  { intros Hin. apply elem_of_cons in Hin as [? | Hin]; [done |].
    by apply list_elem_of_singleton in Hin. }
  assert (["b.py"%string] ∈ [["b.py"%string]]) as Hex by left.
  split; [exact Hnode |]. split; [reflexivity |]. split; [exact Hps |].
  split; [exact Hex |].
  exact (_set_include_paths_excludes three_files_included _ _ _ _ Hnode Hps Hex).
Defined.

Lemma _set_include_paths_keeps_unlisted_witness :
  (forall b node, b `prefix_of` [1%nat] -> node_at b three_files = Some node ->
     (relative_path node ∉ [["a.py"%string]]) /\ (relative_path node ∉ [["c.py"%string]]))
  /\ shallow <$> node_at [1%nat]
                   (_set_include_paths three_files [["a.py"%string]] [["c.py"%string]])
     = shallow <$> node_at [1%nat] three_files.
Proof.
  assert (forall b node, b `prefix_of` [1%nat] -> node_at b three_files = Some node ->
            (relative_path node ∉ [["a.py"%string]])
            /\ (relative_path node ∉ [["c.py"%string]])) as Hnone.
  { intros b node Hpre Hnode.
    assert (b = [] \/ b = [1%nat]) as [-> | ->].
    { destruct b as [| i [| j b]].
      - by left.
      - right. by rewrite (prefix_cons_inv_1 _ _ _ _ Hpre).
      - apply prefix_cons_inv_2 in Hpre. by apply prefix_nil_not in Hpre. }
    all: simplify_eq/=; split; by intros ?%list_elem_of_singleton. }
  split; [exact Hnone |].
  exact (_set_include_paths_keeps_unlisted three_files _ _ _ Hnone).
Defined.

(** ** More on the diff annotator *)

Lemma child_index_erase key n :
  child_index key (children_of (erase n)) = child_index key (children_of n).
Proof.
  destruct n as [q s ann | q s cs]; simpl; [done |].
  induction cs as [| [k c] cs IH]; simpl; [done |].
  destruct (decide (k = key)); [done |]. f_equal. apply IH.
Qed.

Lemma children_of_erase_lookup n i :
  children_of (erase n) !! i
  = (fun kc => match kc with (k, c) => (k, erase c) end) <$> children_of n !! i.
Proof. destruct n as [q s ann | q s cs]; simpl; [done |]. apply list_lookup_fmap. Qed.

(** A lookup depends on the shape of the tree only. *)
Lemma getitem_erase n p : getitem (erase n) p = getitem n p.
Proof.
  revert n. induction p as [| seg rest IH]; intros n; simpl; [done |].
  rewrite child_index_erase. destruct (child_index seg (children_of n)) as [i |]; [| done].
  rewrite children_of_erase_lookup.
  destruct (children_of n !! i) as [[k c] |]; simpl; [| done].
  by rewrite IH.
Qed.

Lemma getitem_by_shape n n' p : erase n = erase n' -> getitem n p = getitem n' p.
Proof. intros He. by rewrite <- (getitem_erase n), <- (getitem_erase n'), He. Qed.

Lemma erase_set_diff_annotations ann n : erase (set_diff_annotations ann n) = erase n.
Proof. by destruct n. Qed.

Lemma _set_diff_annotations_loop_cons dc file rest root :
  _set_diff_annotations_loop dc (file :: rest) root
  = match getitem root file with
    | None => (root, Raise (KeyError file))
    | Some a => _set_diff_annotations_loop dc rest (annotate dc a root)
    end.
Proof. done. Qed.

Lemma erase_annotate dc a root : erase (annotate dc a root) = erase root.
Proof.
  unfold annotate.
  assert (erase (update_at a (update_settings [(Key_diff, true)] true) root) = erase root)
    as He by (apply erase_update_at; intros; apply erase_update_settings).
  destruct (node_at a _) as [m |]; [| done]. destruct (is_file m); [| done].
  rewrite erase_update_at; [done |]. intros. apply erase_set_diff_annotations.
Qed.

Lemma diff_only_grows_shallow x x' : shallow x = shallow x' -> diff_only_grows x x'.
Proof. intros H. by destruct x, x'; simplify_eq/=. Qed.

Lemma diff_only_grows_trans x y z :
  diff_only_grows x y -> diff_only_grows y z -> diff_only_grows x z.
Proof.
  intros (Hp & Hf & Hk & Hd) (Hp' & Hf' & Hk' & Hd'). repeat split; try congruence.
  - intros k Hne. by rewrite Hk', Hk.
  - auto.
Qed.

Lemma related_set_diff_annotations ann n :
  related diff_only_grows n (set_diff_annotations ann n).
Proof.
  intros a. destruct a as [| i a]; simpl.
  { constructor. by destruct n. }
  assert (children_of (set_diff_annotations ann n) = children_of n) as -> by (by destruct n).
  destruct (children_of n !! i) as [[k c] |]; [| constructor].
  apply related_refl, diff_only_grows_shallow.
Qed.

Lemma related_annotate dc a root : related diff_only_grows root (annotate dc a root).
Proof.
  unfold annotate.
  assert (related diff_only_grows root
            (update_at a (update_settings [(Key_diff, true)] true) root)) as Hfirst.
  { apply related_update_at; [apply diff_only_grows_shallow |]. intros m.
    apply related_update_settings; [apply diff_only_grows_shallow |]. intros m'.
    repeat split; try by destruct m'.
    intros k Hk. rewrite settings_of_update_settings.
    apply get_key_apply_update_outside. intros kv ->%list_elem_of_singleton. done. }
  destruct (node_at a _) as [m |]; [| done]. destruct (is_file m); [| done].
  eapply related_trans; [apply diff_only_grows_trans | exact Hfirst |].
  apply related_update_at; [apply diff_only_grows_shallow |]. intros m'.
  apply related_set_diff_annotations.
Qed.

(** X5.  Whether it returns or raises, the diff annotator keeps the shape of
    the tree and, on every node, the path and the settings other than
    [diff]; and it never switches [diff] off. *)
Theorem _set_diff_annotations_only_marks root dc :
  erase (_set_diff_annotations root dc).1 = erase root
  /\ related diff_only_grows root (_set_diff_annotations root dc).1.
Proof.
  unfold _set_diff_annotations. generalize (files dc) as todo. intros todo. revert root.
  induction todo as [| file rest IH]; intros root.
  { split; [done |]. apply related_refl, diff_only_grows_shallow. }
  rewrite _set_diff_annotations_loop_cons.
  destruct (getitem root file) as [a |];
    [| split; [done |]; apply related_refl, diff_only_grows_shallow].
  destruct (IH (annotate dc a root)) as [He Hrel]. split.
  - by rewrite He, erase_annotate.
  - eapply related_trans;
      [apply diff_only_grows_trans | apply related_annotate | exact Hrel].
Qed.

Lemma getitem_valid n p a : getitem n p = Some a -> is_Some (node_at a n).
Proof.
  revert n a. induction p as [| seg rest IH]; intros n a; simpl.
  { intros [= <-]. by eexists. }
  destruct (child_index seg (children_of n)) as [i |]; [| done].
  destruct (children_of n !! i) as [[k c] |] eqn:Hi; [| done].
  destruct (getitem c rest) as [a' |] eqn:Ha'; [| done]. intros [= <-].
  simpl. rewrite Hi. by eapply IH.
Qed.

Lemma marked_annotate_same dc a root :
  is_Some (node_at a root) -> marked dc a (annotate dc a root).
Proof.
  intros [m Hm]. unfold annotate, marked. rewrite node_at_update_at_same, Hm. simpl.
  assert (every_node (fun s => diff s = true)
            (update_settings [(Key_diff, true)] true m)) as Hall
    by apply (every_node_update_settings_rec Key_diff true []).
  destruct m as [p s ann | p s cs]; simpl.
  - rewrite node_at_update_at_same, node_at_update_at_same, Hm. simpl.
    eexists. split; [done |]. split; [| done].
    intros [| i c] m'; simpl; [| done]. intros [= <-]. done.
  - rewrite node_at_update_at_same, Hm. simpl. eexists. split; [done |]. by split.
Qed.

Lemma marked_annotate_other dc a b root :
  marked dc a root -> marked dc a (annotate dc b root).
Proof.
  intros (node & Hnode & Hall & Hann).
  pose proof (related_annotate dc b root) as Hrel.
  pose proof (Hrel a) as Ha. rewrite Hnode in Ha.
  inversion Ha as [x node' (Hp & Hf & Hk & Hd) Hx Hnode' |]; simplify_eq.
  exists node'. split; [done |]. split.
  - intros c m' Hm'. pose proof (Hrel (a ++ c)) as Hc.
    rewrite !node_at_app, Hnode, <- Hnode' in Hc. simpl in Hc. rewrite Hm' in Hc.
    inversion Hc as [m ? (_ & _ & _ & Hgrow) Hm |]; simplify_eq.
    apply Hgrow. by apply (Hall c m).
  - intros Hfile. unfold relative_path in *. rewrite Hp.
    rewrite Hf in Hfile. specialize (Hann Hfile).
    unfold annotate in Hnode'.
    set (r1 := update_at b (update_settings [(Key_diff, true)] true) root) in *.
    assert (related (same_outside [Key_diff]) root r1) as Hr1.
    { apply related_same_outside_update. intros kv ->%list_elem_of_singleton. by left. }
    specialize (Hr1 a). rewrite Hnode in Hr1.
    inversion Hr1 as [? m1 (Hp1 & Hf1 & Ha1 & _) Hx1 Hm1 |]; simplify_eq.
    destruct (node_at b r1) as [mb |] eqn:Hmb; [| congruence].
    destruct (is_file mb) eqn:Hfb; [| congruence].
    destruct (decide (b = a)) as [-> | Hba].
    + rewrite node_at_update_at_same, Hmb in Hnode'. rewrite Hmb in Hm1.
      simplify_eq/=. rewrite <- Hp1. by destruct mb.
    + pose proof (node_at_update_at_ne b a
                    (set_diff_annotations (get_diff_annotations dc (relative_path mb)))
                    r1) as Hne.
      rewrite <- Hnode', <- Hm1 in Hne. simpl in Hne.
      assert (shallow node' = shallow m1) as Hsh.
      { assert (Some (shallow node') = Some (shallow m1)) as Heq
          by (apply Hne; [intros m; by destruct m | done]).
        by injection Heq. }
      rewrite <- Hann, <- Ha1. by destruct node', m1; simplify_eq/=.
Qed.

Lemma marked_loop dc todo a root :
  marked dc a root -> marked dc a (_set_diff_annotations_loop dc todo root).1.
Proof.
  revert root. induction todo as [| file rest IH]; intros root Hmarked; [done |].
  rewrite _set_diff_annotations_loop_cons.
  destruct (getitem root file) as [b |]; [| done].
  by apply IH, marked_annotate_other.
Qed.

Lemma _set_diff_annotations_loop_returns dc todo root :
  (forall file, file ∈ todo -> is_Some (getitem root file)) ->
  (_set_diff_annotations_loop dc todo root).2 = Returned.
Proof.
  revert root. induction todo as [| file rest IH]; intros root Hall; [done |].
  rewrite _set_diff_annotations_loop_cons.
  destruct (Hall file) as [a Ha]; [by left |]. rewrite Ha.
  apply IH. intros f Hf.
  rewrite (getitem_by_shape _ root) by apply erase_annotate. apply Hall. by right.
Qed.

(** X6.  When every file of the diff has a node in the tree, the diff
    annotator returns normally, and for each file of the diff the node the
    lookup finds ends with [diff=True] on itself and on all its descendants
    and, if it is a file node, with the annotations the diff has for its
    relative path. *)
Theorem _set_diff_annotations_marks_every_file root dc :
  (forall file, file ∈ files dc -> is_Some (getitem root file)) ->
  (_set_diff_annotations root dc).2 = Returned
  /\ forall file a, file ∈ files dc -> getitem root file = Some a ->
       exists node, node_at a (_set_diff_annotations root dc).1 = Some node
         /\ every_node (fun s => diff s = true) node
         /\ (is_file node = true ->
             annotations_of node = get_diff_annotations dc (relative_path node)).
Proof.
  intros Hall. split; [by apply _set_diff_annotations_loop_returns |].
  unfold _set_diff_annotations. revert Hall. generalize (files dc) as todo.
  intros todo. revert root.
  induction todo as [| f rest IH]; intros root Hall file a Hin Ha.
  { by apply elem_of_nil in Hin. }
  rewrite _set_diff_annotations_loop_cons.
  destruct (Hall f) as [b Hb]; [by left |]. rewrite Hb.
  assert (forall g, getitem (annotate dc b root) g = getitem root g) as Hsame
    by (intros g; apply getitem_by_shape, erase_annotate).
  apply elem_of_cons in Hin as [-> | Hin].
  - simplify_eq. apply (marked_loop dc rest a), marked_annotate_same.
    by eapply getitem_valid.
  - apply (IH (annotate dc b root)) with (file := file); [| done | by rewrite Hsame].
    intros g Hg. rewrite Hsame. apply Hall. by right.
Qed.

Lemma _set_diff_annotations_loop_app dc l1 l2 root :
  (_set_diff_annotations_loop dc l1 root).2 = Returned ->
  _set_diff_annotations_loop dc (l1 ++ l2) root
  = _set_diff_annotations_loop dc l2 (_set_diff_annotations_loop dc l1 root).1.
Proof.
  revert root. induction l1 as [| file rest IH]; intros root; [done |].
  simpl app. rewrite !_set_diff_annotations_loop_cons.
  destruct (getitem root file) as [a |]; [apply IH | done].
Qed.

(** X7.  The diff annotator stops at the first file of the diff that has no
    node: it raises the [KeyError] of that file, the files before it are
    annotated, and the files after it are not looked at. *)
Theorem _set_diff_annotations_stops_at_first_missing root dc done_files file rest :
  files dc = done_files ++ file :: rest ->
  (forall f, f ∈ done_files -> is_Some (getitem root f)) ->
  getitem root file = None ->
  _set_diff_annotations root dc
  = ((_set_diff_annotations_loop dc done_files root).1, Raise (KeyError file)).
Proof.
  intros Hfiles Hdone Hnone. unfold _set_diff_annotations. rewrite Hfiles.
  rewrite _set_diff_annotations_loop_app by (by apply _set_diff_annotations_loop_returns).
  rewrite _set_diff_annotations_loop_cons.
  assert (getitem (_set_diff_annotations_loop dc done_files root).1 file = None) as ->;
    [| done].
  rewrite <- Hnone. apply getitem_by_shape.
  clear Hfiles Hdone Hnone. revert root.
  induction done_files as [| f l IH]; intros root; [done |].
  rewrite _set_diff_annotations_loop_cons. destruct (getitem root f) as [a |]; [| done].
  by rewrite IH, erase_annotate.
Qed.

Lemma _set_diff_annotations_marks_witness :
  let dc := mkDiffContext [["b.py"%string]] (fun _ => [mkAnnotation 1 2 "changed"]) in
  (forall file, file ∈ files dc -> is_Some (getitem three_files file))
  /\ (_set_diff_annotations three_files dc).2 = Returned.
Proof.
  intros dc.
  assert (forall file, file ∈ files dc -> is_Some (getitem three_files file)) as Hall.
  { intros file ->%list_elem_of_singleton. by eexists. }
  split; [exact Hall |].
  exact (proj1 (_set_diff_annotations_marks_every_file three_files dc Hall)).
Defined.

Lemma _set_diff_annotations_stops_witness :
  let dc := mkDiffContext [["a.py"%string]; ["deleted.py"%string]; ["c.py"%string]]
              (fun _ => []) in
  files dc = [["a.py"%string]] ++ ["deleted.py"%string] :: [["c.py"%string]]
  /\ (forall f, f ∈ [["a.py"%string]] -> is_Some (getitem three_files f))
  /\ getitem three_files ["deleted.py"%string] = None
  /\ _set_diff_annotations three_files dc
     = ((_set_diff_annotations_loop dc [["a.py"%string]] three_files).1,
        Raise (KeyError ["deleted.py"%string])).
Proof.
  intros dc.
  assert (forall f, f ∈ [["a.py"%string]] -> is_Some (getitem three_files f)) as Hdone.
  { intros f ->%list_elem_of_singleton. by eexists. }
  split; [reflexivity |]. split; [exact Hdone |]. split; [reflexivity |].
  exact (_set_diff_annotations_stops_at_first_missing three_files dc
           [["a.py"%string]] ["deleted.py"%string] [["c.py"%string]]
           eq_refl Hdone eq_refl).
Defined.

(** ** More on the allocator *)

Ltac in_keys := simpl; first [by left | right; by left].

Section AllocatorFrame.

Variable file_tokens : string -> Path -> NodeSettings -> list DiffAnnotation -> Z.

#[local] Abbreviation count := (count_tokens file_tokens).
#[local] Abbreviation delta := (feature_delta file_tokens).
#[local] Abbreviation loop := (_set_code_map_loop file_tokens).

Lemma _set_code_map_loop_erase model k (todo : list addr) root budget :
  erase (loop model k todo root budget).1 = erase root.
Proof.
  revert root budget. induction todo as [| a rest IH]; intros root budget; simpl; [done |].
  destruct (node_at a root) as [m |]; [| apply IH].
  destruct (_ >? budget); simpl.
  - rewrite !erase_update_at; [done | |]; intros; apply erase_update_settings.
  - rewrite IH. apply erase_update_at. intros. apply erase_update_settings.
Qed.

Lemma _set_code_map_loop_related ks model k (todo : list addr) root budget :
  k ∈ ks ->
  related (same_outside ks) root (loop model k todo root budget).1.
Proof.
  intros Hk.
  assert (forall v r a, related (same_outside ks) r
                          (update_at a (update_settings [(k, v)] false) r)) as Hstep.
  { intros v r a. apply related_same_outside_update.
    by intros kv ->%list_elem_of_singleton. }
  revert root budget. induction todo as [| a rest IH]; intros root budget; simpl.
  { apply related_refl, same_outside_shallow. }
  destruct (node_at a root) as [m |]; [| apply IH].
  destruct (_ >? budget); simpl.
  - eapply related_trans; [apply same_outside_trans | apply Hstep | apply Hstep].
  - eapply related_trans; [apply same_outside_trans | apply Hstep | apply IH].
Qed.

(** The allocator writes two keys and nothing else. *)
Lemma _set_code_map_frame ctags root model max_tokens :
  erase (_set_code_map file_tokens ctags root model max_tokens) = erase root
  /\ related (same_outside [Key_code_map; Key_include_signature]) root
       (_set_code_map file_tokens ctags root model max_tokens).
Proof.
  set (ks := [Key_code_map; Key_include_signature]).
  assert (forall u r, (forall kv, kv ∈ u -> kv.1 ∈ ks) ->
            related (same_outside ks) r (update_settings u true r)) as Hstage.
  { intros u r Hu. apply related_update_settings; [apply same_outside_shallow |].
    intros m. by apply same_outside_update_settings. }
  assert (related (same_outside ks) root (stage_a root)) as Ha.
  { apply Hstage. intros kv Hkv. unfold ks.
    apply elem_of_cons in Hkv as [-> | ->%list_elem_of_singleton]; in_keys. }
  assert (related (same_outside ks) root (stage_b root)) as Hb.
  { eapply related_trans; [apply same_outside_trans | exact Ha |].
    apply Hstage. intros kv ->%list_elem_of_singleton. unfold ks. in_keys. }
  assert (related (same_outside ks) root (stage_c root)) as Hc.
  { eapply related_trans; [apply same_outside_trans | exact Hb |].
    apply Hstage. intros kv ->%list_elem_of_singleton. unfold ks. in_keys. }
  unfold _set_code_map. fold (stage_a root).
  destruct ctags as [e |]; [split; [done | apply related_refl, same_outside_shallow] |].
  destruct max_tokens as [m |];
    [| split; [apply erase_update_settings | exact Ha]].
  destruct (negb (truthy (Some m)) || _);
    [split; [apply erase_update_settings | exact Ha] |].
  fold (stage_b root). destruct (count model true (stage_b root) <? m).
  - split.
    + rewrite _set_code_map_loop_erase. unfold stage_b, stage_a.
      by rewrite !erase_update_settings.
    + eapply related_trans; [apply same_outside_trans | exact Hb |].
      apply _set_code_map_loop_related. unfold ks. in_keys.
  - fold (stage_c root). split.
    + rewrite _set_code_map_loop_erase. unfold stage_c, stage_b, stage_a.
      by rewrite !erase_update_settings.
    + eapply related_trans; [apply same_outside_trans | exact Hc |].
      apply _set_code_map_loop_related. unfold ks. in_keys.
Qed.

(** X8.  Whatever the ctags check, the model and the ceiling are, the
    allocator writes [code_map] and [include_signature] only: the tree keeps
    its shape, and every node its path, its annotations, its [include] and
    its [diff]. *)
Theorem _set_code_map_only_writes_code_map ctags root model max_tokens :
  erase (_set_code_map file_tokens ctags root model max_tokens) = erase root
  /\ related (same_outside [Key_code_map; Key_include_signature]) root
       (_set_code_map file_tokens ctags root model max_tokens).
Proof. apply _set_code_map_frame. Qed.

(** X9.  When the Stage A total exceeds a ceiling other than 0 and the
    Stage B total is not strictly below it (it may equal the ceiling), the
    allocator falls back to Stage C and adds code maps back: every node ends
    with [include_signature=False], the nodes of the pre-order prefix whose
    deltas fit the budget left by Stage C end with [code_map=True], all the
    others with [code_map=False]. *)
Theorem stage_c_then_code_maps_added_back root model m :
  m ≠ 0 ->
  count model true (stage_a root) > m ->
  count model true (stage_b root) >= m ->
  let base := stage_c root in
  let nodes := iter_nodes true base in
  let n := fitting (m - count model true base) (delta model Key_code_map base <$> nodes) in
  let result := _set_code_map file_tokens None root model (Some m) in
  result = foldl (commit Key_code_map) base (take n nodes)
  /\ every_node (fun s => include_signature s = false) result
  /\ (forall a node, node_at a result = Some node ->
        code_map (settings_of node) = bool_decide (a ∈ take n nodes)).
Proof.
  intros Hm Ha Hb base nodes n result.
  pose proof (iter_nodes_NoDup base) as Hnd. fold nodes in Hnd.
  assert (NoDup (take n nodes)) as Hndn.
  { eapply sublist_NoDup; [exact Hnd | apply sublist_take]. }
  assert (every_node (fun s => get_key Key_code_map s = false) base) as Hoff
    by apply (every_node_update_settings_rec Key_code_map false []).
  assert (result = foldl (commit Key_code_map) base (take n nodes)) as Hres.
  { unfold result. rewrite _set_code_map_cases by done.
    destruct (Z.leb_spec (count model true (stage_a root)) m); [lia |].
    destruct (Z.ltb_spec (count model true (stage_b root)) m); [lia |].
    fold base nodes. rewrite _set_code_map_loop_prefix; [done | done |].
    by apply ready_every_node. }
  split; [done |]. rewrite Hres. split.
  - apply (every_node_foldl_commit (fun s => get_key Key_include_signature s = false));
      [done | done |].
    apply every_node_update_settings_keep; [done |].
    apply (every_node_update_settings_rec Key_include_signature false []).
  - intros a node Hnode.
    pose proof (settings_foldl_commit Key_code_map _ base a Hndn) as Hs.
    rewrite Hnode in Hs. destruct (node_at a base) as [m0 |] eqn:Hm0; simplify_eq/=.
    rewrite Hs. pose proof (Hoff a m0 Hm0) as Hoff0. simpl in Hoff0.
    by case_bool_decide.
Qed.


End AllocatorFrame.

Lemma stage_c_then_code_maps_witness :
  50 ≠ 0
  /\ count_tokens scenario2_tokens "gpt-4" true (stage_a three_files) > 50
  /\ count_tokens scenario2_tokens "gpt-4" true (stage_b three_files) >= 50
  /\ _set_code_map scenario2_tokens None three_files "gpt-4" (Some 50)
     = foldl (commit Key_code_map) (stage_c three_files) [[]; [0%nat]].
Proof.
  assert (50 ≠ 0) as Hm by lia.
  assert (count_tokens scenario2_tokens "gpt-4" true (stage_a three_files) > 50) as Ha
    by (by vm_compute).
  assert (count_tokens scenario2_tokens "gpt-4" true (stage_b three_files) >= 50) as Hb
    by (by vm_compute).
  split; [exact Hm |]. split; [exact Ha |]. split; [exact Hb |].
  exact (proj1 (stage_c_then_code_maps_added_back scenario2_tokens three_files
                  "gpt-4" 50 Hm Ha Hb)).
Defined.


(** ** The [files] property, [add_path] and [remove_path] *)

Lemma elem_of_iter_nodes_files a n :
  a ∈ iter_nodes false n <-> exists p s ann, node_at a n = Some (FileNode p s ann).
Proof.
  revert n. induction a as [| i a IH]; intros n.
  - destruct n as [p s ann | p s cs]; simpl.
    + split; [intros _; by eexists _, _, _ | intros _; by left].
    + split; [| by intros (? & ? & ? & ?)].
      intros (j & k & c & a' & Heq & _)%elem_of_iter_children. done.
  - destruct n as [p s ann | p s cs]; simpl.
    + split; [by intros ?%list_elem_of_singleton | by intros (? & ? & ? & ?)].
    + rewrite elem_of_iter_children. split.
      * intros (j & k & c & a' & Heq & Hj & Ha'). simpl in Heq. simplify_eq.
        rewrite Hj. by apply IH.
      * intros Hfile. destruct (cs !! i) as [[k c] |] eqn:Hi;
          [| by destruct Hfile as (? & ? & ? & ?)].
        exists i, k, c, a. split; [done |]. split; [done |]. by apply IH.
Qed.

(** X11.  [files] lists exactly the paths of the file nodes that are
    included: directories never appear, and neither does a file node with
    [include=False]. *)
Theorem CodeContext_files_spec self p :
  p ∈ CodeContext_files self
  <-> exists a s ann,
        node_at a (root self) = Some (FileNode p s ann) /\ include s = true.
Proof.
  unfold CodeContext_files. rewrite list_elem_of_omap. split.
  - intros (a & Ha & Hp). apply elem_of_iter_nodes_files in Ha as (q & s & ann & Hnode).
    rewrite Hnode in Hp. simpl in Hp. destruct (include s) eqn:Hs; simplify_eq.
    by exists a, s, ann.
  - intros (a & s & ann & Hnode & Hs). exists a. split.
    + apply elem_of_iter_nodes_files. by eexists _, _, _.
    + rewrite Hnode. simpl. by rewrite Hs.
Qed.

Lemma iter_nodes_files_erase n n' :
  erase n = erase n' -> iter_nodes false n = iter_nodes false n'.
Proof.
  revert n'. induction n as [p s ann | p s cs IH] using ContextNode_nested_ind;
    intros [p' s' ann' | p' s' cs'] He; try done.
  simpl in *. injection He as _ He. clear p p' s s'.
  generalize 0%nat. revert cs' He.
  induction IH as [| [k c] cs Hc Hcs IHcs]; intros [| [k' c'] cs'] He i; try done.
  simpl in *. injection He as _ He1 He2. f_equal; [f_equal; by apply Hc | by apply IHcs].
Qed.

(** Trees of the same shape whose nodes agree on [include] list the same
    files. *)
Lemma CodeContext_files_related ks self self' :
  Key_include ∉ ks ->
  erase (root self') = erase (root self) ->
  related (same_outside ks) (root self) (root self') ->
  CodeContext_files self' = CodeContext_files self.
Proof.
  intros Hks He Hrel. unfold CodeContext_files.
  rewrite (iter_nodes_files_erase _ _ He).
  apply list_omap_ext, Forall2_same_length_lookup_2; [done |].
  intros i a b Ha Hb. simplify_eq. specialize (Hrel a).
  destruct Hrel as [m m' (Hp & _ & _ & Hk) |]; [| done].
  specialize (Hk Key_include Hks). simpl in Hk. by rewrite Hp, Hk.
Qed.

(** X12.  The allocator never changes the selection: the [files] of a
    context are the same before and after [_set_code_map], whatever the
    token counter, the ctags check, the model and the ceiling are. *)
Theorem _set_code_map_keeps_files file_tokens ctags self model max_tokens :
  CodeContext_files
    (mkCodeContext (config_model self)
       (_set_code_map file_tokens ctags (root self) model max_tokens)
       (diff_context self) (context_settings self))
  = CodeContext_files self.
Proof.
  destruct (_set_code_map_frame file_tokens ctags (root self) model max_tokens)
    as [He Hrel].
  apply (CodeContext_files_related [Key_code_map; Key_include_signature]); [| done | done].
  intros Hin. apply elem_of_cons in Hin as [? | Hin]; [done |].
  by apply list_elem_of_singleton in Hin.
Qed.

Lemma every_node_child (P : NodeSettings -> Prop) p s cs i k c :
  every_node P (DirectoryNode p s cs) -> cs !! i = Some (k, c) -> every_node P c.
Proof. intros Hall Hi a m Hm. apply (Hall (i :: a) m). simpl. by rewrite Hi. Qed.

(** Writing a key on every node of a subtree that already has it changes
    nothing. *)
Lemma update_settings_rec_id k v n :
  every_node (fun s => get_key k s = v) n -> update_settings [(k, v)] true n = n.
Proof.
  induction n as [p s ann | p s cs IH] using ContextNode_nested_ind; intros Hall.
  - simpl. f_equal. unfold apply_update. simpl.
    rewrite <- (Hall [] _ eq_refl). apply set_key_get_key.
  - simpl. f_equal.
    + unfold apply_update. simpl. rewrite <- (Hall [] _ eq_refl). apply set_key_get_key.
    + apply list_eq. intros i. rewrite list_lookup_fmap.
      destruct (cs !! i) as [[key c] |] eqn:Hi; [| done]. simpl. do 2 f_equal.
      rewrite Forall_lookup in IH. apply (IH i _ Hi). by eapply every_node_child.
Qed.

Lemma update_settings_rec_overwrite k v w n :
  update_settings [(k, w)] true (update_settings [(k, v)] true n)
  = update_settings [(k, w)] true n.
Proof.
  induction n as [p s ann | p s cs IH] using ContextNode_nested_ind; simpl.
  - f_equal. unfold apply_update. simpl. apply set_key_set_key.
  - f_equal; [unfold apply_update; simpl; apply set_key_set_key |].
    rewrite <- list_fmap_compose. apply Forall_fmap_ext_1.
    eapply Forall_impl; [exact IH |]. intros [key c] Hc. simpl in *. by rewrite Hc.
Qed.

Lemma CodeContext_eta self :
  mkCodeContext (config_model self) (root self) (diff_context self) (context_settings self)
  = self.
Proof. by destruct self. Qed.

Section AddRemove.

Variable path_exists : Path -> bool.
Variable path_is_dir : Path -> bool.

#[local] Abbreviation run_add_path := (add_path path_exists path_is_dir).

(** X13.  [add_path] for an existing path that has a node: afterwards the
    node is included; if it was not included before, so are all its
    descendants; if it was, the context is left as it is.  In both cases
    nothing but [include] is written. *)
Theorem add_path_includes_node self path a node :
  path_exists path = true ->
  getitem (root self) path = Some a ->
  node_at a (root self) = Some node ->
  (exists node', node_at a (root (run_add_path self path)) = Some node'
     /\ include (settings_of node') = true
     /\ (include (settings_of node) = false ->
         every_node (fun s => include s = true) node'))
  /\ (include (settings_of node) = true -> run_add_path self path = self)
  /\ erase (root (run_add_path self path)) = erase (root self)
  /\ related (same_outside [Key_include]) (root self) (root (run_add_path self path)).
Proof.
  intros Hex Hget Hnode. unfold add_path. rewrite Hex, Hget, Hnode. simpl.
  destruct (include (settings_of node)) eqn:Hinc; simpl.
  - split; [exists node; by repeat split |]. split; [done |]. split; [done |].
    apply related_refl, same_outside_shallow.
  - split; [| split; [done |]; split].
    + rewrite node_at_update_at_same, Hnode. simpl. eexists. split; [done |].
      split; [by rewrite settings_of_update_settings |]. intros _.
      apply (every_node_update_settings_rec Key_include true []).
    + apply erase_update_at. intros. apply erase_update_settings.
    + apply related_same_outside_update. intros kv ->%list_elem_of_singleton. by left.
Qed.

(** X14.  [remove_path] for a path that has a node: afterwards the node is
    not included; if it was included before, all its descendants are excluded
    too and the exclusion is reported; if it was not, the context is left as
    it is.  For a path without a node, the context is left as it is and the
    path is reported as not in context. *)
Theorem remove_path_excludes_node self path :
  match getitem (root self) path with
  | Some a =>
      forall node, node_at a (root self) = Some node ->
        (exists node', node_at a (root (remove_path self path).1) = Some node'
           /\ include (settings_of node') = false
           /\ (include (settings_of node) = true ->
               every_node (fun s => include s = false) node'
               /\ (remove_path self path).2 = FileExcluded (relative_path node)))
        /\ (include (settings_of node) = false ->
            remove_path self path = (self, AlreadyExcluded (relative_path node)))
        /\ erase (root (remove_path self path).1) = erase (root self)
        /\ related (same_outside [Key_include]) (root self)
             (root (remove_path self path).1)
  | None => remove_path self path = (self, NotInContext path)
  end.
Proof.
  unfold remove_path. destruct (getitem (root self) path) as [a |]; [| done].
  intros node Hnode. rewrite Hnode.
  destruct (include (settings_of node)) eqn:Hinc; simpl.
  - split; [| split; [done |]; split].
    + rewrite node_at_update_at_same, Hnode. simpl. eexists. split; [done |].
      split; [by rewrite settings_of_update_settings |]. intros _. split; [| done].
      apply (every_node_update_settings_rec Key_include false []).
    + apply erase_update_at. intros. apply erase_update_settings.
    + apply related_same_outside_update. intros kv ->%list_elem_of_singleton. by left.
  - split; [exists node; by repeat split |]. split; [done |]. split; [done |].
    apply related_refl, same_outside_shallow.
Qed.

(** X15.  Adding a path and removing it again restores the context, when
    the node of the path and all its descendants were excluded to begin
    with. *)
Theorem remove_path_after_add_path self path a node :
  path_exists path = true ->
  getitem (root self) path = Some a ->
  node_at a (root self) = Some node ->
  every_node (fun s => include s = false) node ->
  (remove_path (run_add_path self path) path).1 = self.
Proof.
  intros Hex Hget Hnode Hall.
  assert (include (settings_of node) = false) as Hinc by apply (Hall [] node eq_refl).
  unfold add_path. rewrite Hex, Hget, Hnode, Hinc. simpl.
  unfold remove_path. simpl.
  rewrite (getitem_by_shape _ (root self))
    by (apply erase_update_at; intros; apply erase_update_settings).
  rewrite Hget, node_at_update_at_same, Hnode. simpl.
  rewrite settings_of_update_settings. simpl.
  rewrite update_at_update_at, update_at_id; [apply CodeContext_eta |].
  intros m Hm. simplify_eq. simpl.
  rewrite update_settings_rec_overwrite. by apply (update_settings_rec_id Key_include).
Qed.

End AddRemove.

Lemma remove_path_excludes_witness :
  exists node',
    node_at [1%nat]
      (root (remove_path
               (mkCodeContext "gpt-4"
                  (_set_include_paths three_files [["b.py"%string]] []) None
                  (mkContextSettings [] [] false None None))
               ["b.py"%string]).1) = Some node'
    /\ include (settings_of node') = false.
Proof.
  destruct (proj1 (remove_path_excludes_node
                     (mkCodeContext "gpt-4"
                        (_set_include_paths three_files [["b.py"%string]] []) None
                        (mkContextSettings [] [] false None None))
                     ["b.py"%string] _ eq_refl))
    as (node' & Hnode' & Hinc & _).
  exists node'. split; [exact Hnode' | exact Hinc].
Defined.

Lemma add_path_includes_witness :
  everything_exists ["b.py"%string] = true
  /\ getitem (root three_files_context) ["b.py"%string] = Some [1%nat]
  /\ node_at [1%nat] (root three_files_context)
     = Some (FileNode ["b.py"%string] default_settings [])
  /\ exists node',
       node_at [1%nat]
         (root (add_path everything_exists vendor_is_dir three_files_context
                  ["b.py"%string])) = Some node'
       /\ include (settings_of node') = true.
Proof.
  split; [reflexivity |]. split; [reflexivity |]. split; [reflexivity |].
  destruct (proj1 (add_path_includes_node everything_exists vendor_is_dir
                     three_files_context ["b.py"%string] [1%nat] _
                     eq_refl eq_refl eq_refl))
    as (node' & Hnode' & Hinc & _).
  exists node'. split; [exact Hnode' | exact Hinc].
Defined.

Lemma remove_path_after_add_path_witness :
  everything_exists [] = true
  /\ getitem (root three_files_context) [] = Some []
  /\ node_at [] (root three_files_context) = Some three_files
  /\ every_node (fun s => include s = false) three_files
  /\ (remove_path
        (add_path everything_exists vendor_is_dir three_files_context []) []).1
     = three_files_context.
Proof.
  assert (every_node (fun s => include s = false) three_files) as Hall.
  { intros a m Hm.
    assert (a ∈ iter_nodes true three_files) as Ha
      by (apply iter_nodes_complete; by eexists).
    simpl in Ha. rewrite !elem_of_cons in Ha.
    destruct Ha as [-> | [-> | [-> | [-> | Ha]]]]; [| | | | by apply elem_of_nil in Ha];
      by simplify_eq/=. }
  split; [reflexivity |]. split; [reflexivity |]. split; [reflexivity |].
  split; [exact Hall |].
  exact (remove_path_after_add_path everything_exists vendor_is_dir three_files_context
           [] [] three_files eq_refl eq_refl eq_refl Hall).
Defined.

(** ** More on the refresh pipeline *)

Section RefreshMore.

Variable file_tokens : string -> Path -> NodeSettings -> list DiffAnnotation -> Z.

#[local] Abbreviation count := (count_tokens file_tokens).

(** The bound of the allocator, for any ceiling other than 0. *)
Lemma _set_code_map_total_bound ctags root model m :
  m ≠ 0 ->
  count model true root <= m ->
  count model true (stage_c root) <= m ->
  count model true (_set_code_map file_tokens ctags root model (Some m)) <= m.
Proof.
  intros Hm Hroot Hc. destruct ctags as [e |]; [done |].
  rewrite _set_code_map_cases by done.
  destruct (Z.leb_spec (count model true (stage_a root)) m) as [Ha | Ha]; [done |].
  destruct (Z.ltb_spec (count model true (stage_b root)) m) as [Hb | Hb].
  - etrans; [apply _set_code_map_loop_total |]; try lia.
    + apply iter_nodes_NoDup.
    + apply ready_every_node, stage_b_signatures_off.
  - etrans; [apply _set_code_map_loop_total |]; try lia.
    + apply iter_nodes_NoDup.
    + apply ready_every_node, stage_c_code_map_off.
Qed.

Variable check_ctags_executable : option UserError.
Variable get_diff_context : option string -> option string -> UserError + DiffContext.
Variable tree_refresh : ContextNode -> ContextNode.

#[local] Abbreviation run_refresh :=
  (refresh file_tokens check_ctags_executable get_diff_context tree_refresh).

Lemma refresh_overlay_raises self max_tokens dc T e :
  get_diff_context (diff_target (context_settings self)) (pr_diff (context_settings self))
    = inr dc ->
  overlaid tree_refresh self dc = (T, Raise e) ->
  (run_refresh self max_tokens).2 = Raise e.
Proof.
  intros Hdc Hov. unfold refresh, overlaid, effective_settings in *. rewrite Hdc.
  cbv zeta in *. by rewrite Hov.
Qed.

(** X16.  With a token counter that is monotone, whenever [refresh] returns
    under a ceiling other than 0, the total of the tree it leaves is within
    the ceiling: with or without code map, with or without ctags. *)
Theorem refresh_returns_within_ceiling self m :
  token_counter_monotone file_tokens ->
  m ≠ 0 ->
  (run_refresh self (Some m)).2 = Returned ->
  count (config_model self) true (root (run_refresh self (Some m)).1) <= m.
Proof.
  intros Hmono Hm Hret.
  destruct (get_diff_context (diff_target (context_settings self))
              (pr_diff (context_settings self))) as [e | dc] eqn:Hdc.
  { unfold refresh in Hret. by rewrite Hdc in Hret. }
  destruct (overlaid tree_refresh self dc) as [T [| e]] eqn:Hov.
  2: { rewrite (refresh_overlay_raises self (Some m) dc T e Hdc Hov) in Hret.
       discriminate Hret. }
  rewrite (refresh_after_overlays _ _ _ _ self (Some m) dc T Hdc Hov) in Hret |- *.
  destruct (Z.eqb_spec m 0) as [? | _]; [done |]. simpl in *.
  destruct (Z.gtb_spec (count (config_model self) true T) m) as [Hgt | Hle];
    simpl in *; [discriminate Hret |].
  destruct (negb (no_code_map _)); simpl; [| done].
  apply _set_code_map_total_bound; [done | done |].
  etrans; [by apply stage_c_total_le | done].
Qed.

Lemma refresh_context_settings self max_tokens :
  context_settings (run_refresh self max_tokens).1
  = match get_diff_context (diff_target (context_settings self))
            (pr_diff (context_settings self)) with
    | inl _ => context_settings self
    | inr dc => effective_settings (context_settings self) dc
    end.
Proof.
  unfold refresh, effective_settings.
  destruct (get_diff_context _ _) as [e | dc]; [done |].
  destruct (_set_diff_annotations _ _) as [T [| e]]; [| done]. simpl.
  destruct max_tokens as [m |].
  - destruct (truthy (Some m) && _); [done |]. by destruct (negb _).
  - by destruct (negb _).
Qed.

End RefreshMore.

(** A context with explicit include paths keeps them over a refresh. *)
Lemma refresh_keeps_paths file_tokens ctags get_diff_context tree_refresh self max_tokens :
  paths (context_settings self) ≠ [] ->
  paths (context_settings
           (refresh file_tokens ctags get_diff_context tree_refresh self max_tokens).1)
  = paths (context_settings self).
Proof.
  intros Hpaths. rewrite refresh_context_settings.
  destruct (get_diff_context _ _) as [e | dc]; [done |].
  unfold effective_settings.
  destruct (paths (context_settings self)) as [| f fs] eqn:Hp; [done | by rewrite Hp].
Qed.

(** X17.  The include list that a refresh takes from the diff sticks.  When
    a context without explicit include paths is refreshed and the diff
    touches some files, these files are stored as its include paths, whether
    the refresh returns or raises; after any number of later refreshes, with
    whatever ceilings and whatever the collaborators answer then, the stored
    include paths are still these files. *)
Theorem refresh_default_paths_stick
    file_tokens ctags get_diff_context tree_refresh self max_tokens dc
    (later : list RefreshCall) :
  paths (context_settings self) = [] ->
  get_diff_context (diff_target (context_settings self)) (pr_diff (context_settings self))
    = inr dc ->
  files dc ≠ [] ->
  let self1 := (refresh file_tokens ctags get_diff_context tree_refresh self max_tokens).1 in
  paths (context_settings self1) = files dc
  /\ paths (context_settings (refresh_calls self1 later)) = files dc.
Proof.
  intros Hempty Hdc Hfiles self1.
  assert (paths (context_settings self1) = files dc) as H1.
  { unfold self1. rewrite refresh_context_settings, Hdc.
    unfold effective_settings. by rewrite Hempty. }
  split; [done |]. clearbody self1. unfold refresh_calls.
  revert self1 H1. induction later as [| call later IH]; intros self1 H1; [done |].
  simpl. apply IH. unfold refresh_call.
  rewrite refresh_keeps_paths; [done |]. by rewrite H1.
Qed.

Lemma refresh_returns_within_ceiling_witness :
  token_counter_monotone selection_tokens
  /\ 50 ≠ 0
  /\ (refresh selection_tokens None no_diff same_files one_file_context (Some 50)).2
     = Returned
  /\ count_tokens selection_tokens "gpt-4" true
       (root (refresh selection_tokens None no_diff same_files one_file_context
                (Some 50)).1) <= 50.
Proof.
  assert (token_counter_monotone selection_tokens) as Hmono.
  { intros model p [i d c sg] ann. unfold selection_tokens. simpl.
    destruct i, c; lia. }
  assert (50 ≠ 0) as Hm by lia.
  split; [exact Hmono |]. split; [exact Hm |]. split; [reflexivity |].
  exact (refresh_returns_within_ceiling selection_tokens None no_diff same_files
           one_file_context 50 Hmono Hm eq_refl).
Defined.

Lemma refresh_default_paths_stick_witness :
  let later :=
    [mkRefreshCall selection_tokens None no_diff same_files None;
     mkRefreshCall selection_tokens None deleted_file_diff same_files (Some 100);
     mkRefreshCall selection_tokens None failing_diff same_files (Some 10)] in
  paths (context_settings three_files_context) = []
  /\ b_file_diff None None = inr (mkDiffContext [["b.py"%string]] (fun _ => []))
  /\ [["b.py"%string]] ≠ []
  /\ paths (context_settings
              (refresh_calls
                 (refresh selection_tokens None b_file_diff same_files
                    three_files_context None).1 later))
     = [["b.py"%string]].
Proof.
  intros later.
  assert ([["b.py"%string]] ≠ ([] : list Path)) as Hfiles by discriminate.
  split; [reflexivity |]. split; [reflexivity |]. split; [exact Hfiles |].
  exact (proj2 (refresh_default_paths_stick selection_tokens None b_file_diff same_files
                  three_files_context None
                  (mkDiffContext [["b.py"%string]] (fun _ => [])) later
                  eq_refl eq_refl Hfiles)).
Defined.

(** ** [parse_message] *)

Lemma pop_empty_lines_None l :
  pop_empty_lines l = None <-> Forall (fun x => x = ""%string) l.
Proof.
  induction l as [| x l IH]; simpl; [done |].
  destruct (String.eqb_spec x "") as [-> | Hx].
  - rewrite IH. split; [by constructor | by inversion 1].
  - split; [done | by inversion 1].
Qed.

Lemma pop_empty_lines_Some l r :
  pop_empty_lines l = Some r <->
  exists blanks x r', r = x :: r' /\ x ≠ ""%string /\ l = blanks ++ r
                      /\ Forall (fun y => y = ""%string) blanks.
Proof.
  revert r. induction l as [| x l IH]; intros r; simpl.
  { split; [done |]. intros (blanks & y & r' & -> & _ & Hl & _). by destruct blanks. }
  destruct (String.eqb_spec x "") as [-> | Hx].
  - rewrite IH. split.
    + intros (blanks & y & r' & -> & Hy & -> & Hb).
      exists (""%string :: blanks), y, r'. repeat split; try done. by constructor.
    + intros (blanks & y & r' & -> & Hy & Hl & Hb).
      destruct blanks as [| b blanks]; simplify_eq/=; try done.
      exists blanks, y, r'. repeat split; try done. by inversion Hb.
  - split.
    + intros [= <-]. exists [], x, l. by repeat split.
    + intros (blanks & y & r' & -> & Hy & Hl & Hb).
      destruct blanks as [| b blanks]; simplify_eq/=; try done.
      by inversion Hb.
Qed.

Section ParserFacts.

Variable _starts_special : string -> bool.
Variable _ends_code : string -> bool.
Variable splitlines : string -> list string.

#[local] Abbreviation kept_from :=
  (parse_message_loop _starts_special _ends_code).
#[local] Abbreviation parse :=
  (parse_message _starts_special _ends_code splitlines).

(** Outside a special block, lines that do not start one are kept. *)
Lemma parse_message_loop_plain pre rest output :
  Forall (fun line => _starts_special line = false) pre ->
  kept_from (pre ++ rest) false output = kept_from rest false (output ++ pre).
Proof.
  intros Hpre. revert output. induction Hpre as [| line pre Hline Hpre IH];
    intros output; simpl.
  { by rewrite app_nil_r. }
  rewrite Hline. simpl. destruct (_ends_code line); by rewrite IH, <- app_assoc.
Qed.

(** Inside a special block, lines that do not end it are dropped. *)
Lemma parse_message_loop_special mid rest output :
  Forall (fun line => _ends_code line = false) mid ->
  kept_from (mid ++ rest) true output = kept_from rest true output.
Proof.
  intros Hmid. revert output. induction Hmid as [| line mid Hline Hmid IH];
    intros output; simpl; [done |].
  rewrite Hline. destruct (_starts_special line); apply IH.
Qed.

Lemma parse_message_loop_output lines in_special output :
  kept_from lines in_special output = output ++ kept_from lines in_special [].
Proof.
  revert in_special output. induction lines as [| line rest IH];
    intros in_special output; simpl.
  { by rewrite app_nil_r. }
  destruct (_starts_special line), in_special, (_ends_code line); simpl;
    rewrite ?(IH _ (output ++ [line])), ?(IH _ [line]), <- ?app_assoc; try done;
    apply IH.
Qed.

(** X18.  A special block is cut out with its first and its last line: when
    no line before the block starts a special block, the block opens with a
    line that starts one and does not end it, no line inside ends it and its
    last line does, then the kept lines are the lines before the block
    followed by what is kept of the lines after it. *)
Theorem parse_message_loop_cuts_block pre first mid last post :
  Forall (fun line => _starts_special line = false) pre ->
  _starts_special first = true ->
  _ends_code first = false ->
  Forall (fun line => _ends_code line = false) mid ->
  _ends_code last = true ->
  parse_message_loop _starts_special _ends_code
    (pre ++ first :: mid ++ last :: post) false []
  = pre ++ parse_message_loop _starts_special _ends_code post false [].
Proof.
  intros Hpre Hfirst Hfirst' Hmid Hlast.
  rewrite parse_message_loop_plain by done. simpl. rewrite Hfirst, Hfirst'. simpl.
  rewrite parse_message_loop_special by done. simpl. rewrite Hlast.
  assert (kept_from post false pre = pre ++ kept_from post false []) as Hout
    by apply parse_message_loop_output.
  by destruct (_starts_special last).
Qed.

(** X19.  A special block that is never ended swallows the rest of the
    message: when no line before it starts a special block, the block opens
    with a line that starts one, and neither this line nor any line after it
    ends the block, only the lines before the block are kept. *)
Theorem parse_message_loop_open_block pre first rest :
  Forall (fun line => _starts_special line = false) pre ->
  _starts_special first = true ->
  Forall (fun line => _ends_code line = false) (first :: rest) ->
  parse_message_loop _starts_special _ends_code (pre ++ first :: rest) false [] = pre.
Proof.
  intros Hpre Hfirst Hends. inversion Hends as [| ? ? Hfirst' Hrest]; simplify_eq.
  rewrite parse_message_loop_plain by done. simpl. rewrite Hfirst, Hfirst'. simpl.
  rewrite <- (app_nil_r rest), parse_message_loop_special by done. done.
Qed.

(** X20.  [parse_message] of a string content raises [IndexError] exactly
    when every kept line is empty, in particular when the content has no
    line at all or lies entirely inside a special block; for any other
    content it never does. *)
Theorem parse_message_index_error message :
  parse_message _starts_special _ends_code splitlines message = IndexError
  <-> exists s, content message = ContentStr s
        /\ Forall (fun line => line = ""%string)
             (parse_message_loop _starts_special _ends_code (splitlines s) false []).
Proof.
  unfold parse_message. destruct (content message) as [s | [| first rest] |].
  - destruct (pop_empty_lines _) as [r |] eqn:Hpop.
    + split; [done |]. intros (s' & [= <-] & Hall).
      apply Forall_reverse, pop_empty_lines_None in Hall. congruence.
    + split; [| done]. intros _. exists s. split; [done |].
      by apply Forall_reverse, pop_empty_lines_None.
  - split; [done | by intros (? & ? & _)].
  - split; [by destruct first | by intros (? & ? & _)].
  - split; [done | by intros (? & ? & _)].
Qed.

(** X21.  When [parse_message] of a string content returns, its text is the
    kept lines without the empty lines at their end, joined by line feeds:
    the last of the joined lines is not empty; and the code is empty. *)
Theorem parse_message_text r s text code :
  parse_message _starts_special _ends_code splitlines (mkMessage r (ContentStr s))
  = Parsed text code ->
  exists output last_line blanks,
    parse_message_loop _starts_special _ends_code (splitlines s) false [] = output ++ blanks
    /\ Forall (fun line => line = ""%string) blanks
    /\ last output = Some last_line
    /\ last_line ≠ ""%string
    /\ text = String.concat newline output
    /\ code = ""%string.
Proof.
  unfold parse_message. simpl.
  destruct (pop_empty_lines _) as [rv |] eqn:Hpop; [| done]. intros [= <- <-].
  apply pop_empty_lines_Some in Hpop as (blanks & x & r' & -> & Hx & Hrev & Hb).
  exists (reverse (x :: r')), x, (reverse blanks). repeat split.
  - rewrite <- reverse_app, <- Hrev. by rewrite reverse_involutive.
  - by apply Forall_reverse.
  - rewrite reverse_cons. apply last_snoc.
  - done.
Qed.

(** X22.  A message without special lines whose last line is not empty is
    given back as it is split: the text is its lines joined by line feeds. *)
Theorem parse_message_plain r s last_line :
  Forall (fun line => _starts_special line = false) (splitlines s) ->
  last (splitlines s) = Some last_line ->
  last_line ≠ ""%string ->
  parse_message _starts_special _ends_code splitlines (mkMessage r (ContentStr s))
  = Parsed (String.concat newline (splitlines s)) "".
Proof.
  intros Hplain Hlast Hne. unfold parse_message. simpl.
  pose proof (parse_message_loop_plain (splitlines s) [] [] Hplain) as Hkept.
  rewrite app_nil_r in Hkept. simpl in Hkept. rewrite Hkept.
  apply last_Some in Hlast as [l' Hl']. rewrite Hl', reverse_snoc. simpl.
  destruct (String.eqb_spec last_line "") as [? | _]; [done |].
  by rewrite <- reverse_snoc, reverse_involutive.
Qed.

End ParserFacts.

Lemma parse_message_loop_cuts_block_witness :
  Forall (fun line => starts_fence line = false) ["hello"%string]
  /\ starts_fence "@@start" = true
  /\ ends_fence "@@start" = false
  /\ Forall (fun line => ends_fence line = false) ["x = 1"%string]
  /\ ends_fence "@@end" = true
  /\ parse_message_loop starts_fence ends_fence
       (["hello"%string] ++ "@@start"%string :: ["x = 1"%string]
          ++ "@@end"%string :: ["bye"%string]) false []
     = ["hello"%string] ++ parse_message_loop starts_fence ends_fence ["bye"%string] false [].
Proof.
  assert (Forall (fun line => starts_fence line = false) ["hello"%string]) as Hpre
    by (by repeat constructor).
  assert (Forall (fun line => ends_fence line = false) ["x = 1"%string]) as Hmid
    by (by repeat constructor).
  split; [exact Hpre |]. split; [reflexivity |]. split; [reflexivity |].
  split; [exact Hmid |]. split; [reflexivity |].
  exact (parse_message_loop_cuts_block starts_fence ends_fence ["hello"%string]
           "@@start" ["x = 1"%string] "@@end" ["bye"%string]
           Hpre eq_refl eq_refl Hmid eq_refl).
Defined.

Lemma parse_message_loop_open_block_witness :
  Forall (fun line => starts_fence line = false) ["hello"%string]
  /\ starts_fence "@@start" = true
  /\ Forall (fun line => ends_fence line = false) ["@@start"%string; "x = 1"%string]
  /\ parse_message_loop starts_fence ends_fence
       (["hello"%string] ++ "@@start"%string :: ["x = 1"%string]) false []
     = ["hello"%string].
Proof.
  assert (Forall (fun line => starts_fence line = false) ["hello"%string]) as Hpre
    by (by repeat constructor).
  assert (Forall (fun line => ends_fence line = false)
            ["@@start"%string; "x = 1"%string]) as Hends
    by (by repeat constructor).
  split; [exact Hpre |]. split; [reflexivity |]. split; [exact Hends |].
  exact (parse_message_loop_open_block starts_fence ends_fence ["hello"%string]
           "@@start" ["x = 1"%string] Hpre eq_refl Hends).
Defined.

Lemma parse_message_text_witness :
  parse_message starts_fence ends_fence lf_lines
    (mkMessage "user" (ContentStr ("hi" ++ newline ++ newline)))
  = Parsed "hi" ""
  /\ exists output last_line blanks,
       parse_message_loop starts_fence ends_fence
         (lf_lines ("hi" ++ newline ++ newline)) false [] = output ++ blanks
       /\ Forall (fun line => line = ""%string) blanks
       /\ last output = Some last_line
       /\ last_line ≠ ""%string
       /\ "hi"%string = String.concat newline output
       /\ ""%string = ""%string.
Proof.
  split; [reflexivity |].
  exact (parse_message_text starts_fence ends_fence lf_lines "user"
           ("hi" ++ newline ++ newline) "hi" "" eq_refl).
Defined.

Lemma parse_message_plain_witness :
  Forall (fun line => starts_fence line = false) (lf_lines ("a" ++ newline ++ "b"))
  /\ last (lf_lines ("a" ++ newline ++ "b")) = Some "b"%string
  /\ "b"%string ≠ ""%string
  /\ parse_message starts_fence ends_fence lf_lines
       (mkMessage "assistant" (ContentStr ("a" ++ newline ++ "b")))
     = Parsed (String.concat newline (lf_lines ("a" ++ newline ++ "b"))) "".
Proof.
  assert (Forall (fun line => starts_fence line = false)
            (lf_lines ("a" ++ newline ++ "b"))) as Hplain
    by (by repeat constructor).
  assert ("b"%string ≠ ""%string) as Hne by discriminate.
  split; [exact Hplain |]. split; [reflexivity |]. split; [exact Hne |].
  exact (parse_message_plain starts_fence ends_fence lf_lines "assistant"
           ("a" ++ newline ++ "b") "b" Hplain eq_refl Hne).
Defined.

(** ** The message loop of [create_sample] *)

Lemma string_append_assoc (a b c : string) : (a ++ (b ++ c) = (a ++ b) ++ c)%string.
Proof.
  induction a as [| x a IH]; [done |].
  unfold String.append. fold String.append. by f_equal.
Qed.

Lemma string_append_empty_r (a : string) : (a ++ "" = a)%string.
Proof.
  induction a as [| x a IH]; [done |].
  unfold String.append. fold String.append. by f_equal.
Qed.

Section SampleMessages.

Variable _starts_special : string -> bool.
Variable _ends_code : string -> bool.
Variable splitlines : string -> list string.

#[local] Abbreviation parse :=
  (parse_message _starts_special _ends_code splitlines).
#[local] Abbreviation messages_loop :=
  (create_sample_messages_loop _starts_special _ends_code splitlines).
#[local] Abbreviation sample_messages :=
  (create_sample_messages _starts_special _ends_code splitlines).

Lemma create_sample_messages_loop_filter msgs history prompt edit :
  messages_loop (filter (fun m => user_or_assistant m = true) msgs) history prompt edit
  = messages_loop msgs history prompt edit.
Proof.
  revert history prompt edit. induction msgs as [| m msgs IH]; intros history prompt edit;
    [done |].
  rewrite filter_cons. unfold user_or_assistant at 1.
  destruct (decide _) as [Hrel | Hrel]; simpl.
  - unfold user_or_assistant in Hrel. rewrite Hrel. simpl.
    destruct (parse m) as [text code |]; [| done].
    destruct (String.eqb prompt ""); [| apply IH].
    destruct (String.eqb (role m) "user"); [apply IH |].
    destruct (String.eqb (role m) "assistant"); apply IH.
  - apply not_true_is_false in Hrel. unfold user_or_assistant in Hrel.
    rewrite Hrel. simpl. apply IH.
Qed.

(** X23.  [create_sample] ignores every message whose role is neither
    [user] nor [assistant]: such a message is not even parsed, so it changes
    neither the result nor whether [parse_message] raises. *)
Theorem create_sample_messages_other_roles messages :
  create_sample_messages _starts_special _ends_code splitlines
    (filter (fun m => user_or_assistant m = true) messages)
  = create_sample_messages _starts_special _ends_code splitlines messages.
Proof.
  unfold create_sample_messages. rewrite <- filter_reverse.
  apply create_sample_messages_loop_filter.
Qed.

(** While no prompt is found: a user message with an empty text leaves
    everything as it is, an assistant message adds its text to the edit, and
    any other message is skipped. *)
Lemma create_sample_messages_loop_edit l texts rest history edit :
  Forall (fun m => role m = "user"%string -> exists c, parse m = Parsed "" c) l ->
  Forall2 (fun m x => exists c, parse m = Parsed x c)
    (filter (fun m => role m = "assistant"%string) l) texts ->
  messages_loop (l ++ rest) history "" edit
  = messages_loop rest history "" (edit ++ foldr String.append "" texts).
Proof.
  intros Husers. revert texts edit.
  induction Husers as [| m l Huser Husers IH]; intros texts edit Htexts.
  { rewrite filter_nil in Htexts. apply Forall2_nil_inv_l in Htexts as ->.
    simpl. by rewrite string_append_empty_r. }
  rewrite filter_cons in Htexts. simpl.
  destruct (String.eqb_spec (role m) "user") as [Hu | Hu].
  - destruct (Huser Hu) as [c Hparse]. rewrite Hparse. simpl.
    destruct (decide (role m = "assistant"%string)) as [Ha | _]; [congruence |].
    by apply IH.
  - destruct (String.eqb_spec (role m) "assistant") as [Ha | Ha]; simpl.
    + destruct (decide (role m = "assistant"%string)) as [_ | ?]; [| done].
      inversion Htexts as [| ? x ? texts' [c Hparse] Htexts']; subst.
      rewrite Hparse. simpl. rewrite (IH texts') by done. f_equal.
      symmetry. apply string_append_assoc.
    + destruct (decide (role m = "assistant"%string)) as [? | _]; [done |].
      by apply IH.
Qed.

(** Once the prompt is found, every user and assistant message goes to the
    history, and any other message is skipped. *)
Lemma create_sample_messages_loop_history l entries history prompt edit :
  prompt ≠ ""%string ->
  Forall2 (fun m h => exists t c, parse m = Parsed t c
                        /\ h = mkHistoryEntry (role m) (t ++ c))
    (filter (fun m => user_or_assistant m = true) l) entries ->
  messages_loop l history prompt edit = Some (history ++ entries, prompt, edit).
Proof.
  intros Hprompt. revert entries history.
  induction l as [| m l IH]; intros entries history Hl.
  { rewrite filter_nil in Hl. apply Forall2_nil_inv_l in Hl as ->.
    simpl. by rewrite app_nil_r. }
  rewrite filter_cons in Hl. simpl. fold (user_or_assistant m).
  destruct (decide (user_or_assistant m = true)) as [Hrel | Hrel].
  - rewrite Hrel. simpl.
    inversion Hl as [| ? h ? entries' (t & c & Hparse & ->) Hl']; subst.
    rewrite Hparse.
    destruct (String.eqb_spec prompt "") as [? | _]; [done |].
    by rewrite (IH entries') by done; rewrite <- app_assoc.
  - apply not_true_is_false in Hrel. rewrite Hrel. simpl. by apply IH.
Qed.

(** X24.  [create_sample] walks the conversation from its end, looking at
    the user and assistant messages only.  When [parse_message] returns for
    each of them, the last user message with a text that is not empty gives
    the prompt; the texts of the assistant messages after it are concatenated
    into the edit, the latest first, and a user message after it, which has
    an empty text, adds nothing; and the user and assistant messages before
    it make the history, the latest first as well. *)
Theorem create_sample_messages_split before u after entries t c texts :
  Forall2 (fun m h => exists t c,
                        parse_message _starts_special _ends_code splitlines m
                        = Parsed t c
                        /\ h = mkHistoryEntry (role m) (t ++ c))
    (filter (fun m => user_or_assistant m = true) before) entries ->
  role u = "user"%string ->
  parse_message _starts_special _ends_code splitlines u = Parsed t c ->
  t ≠ ""%string ->
  Forall (fun m => role m = "user"%string ->
                   exists c, parse_message _starts_special _ends_code splitlines m
                             = Parsed "" c)
    after ->
  Forall2 (fun m x => exists c, parse_message _starts_special _ends_code splitlines m
                                = Parsed x c)
    (filter (fun m => role m = "assistant"%string) after) texts ->
  create_sample_messages _starts_special _ends_code splitlines (before ++ u :: after)
  = Some (reverse entries, t, foldr String.append "" (reverse texts)).
Proof.
  intros Hbefore Hrole Hparse Ht Husers Hafter. unfold create_sample_messages.
  rewrite reverse_app, reverse_cons, <- app_assoc.
  rewrite (create_sample_messages_loop_edit _ (reverse texts)).
  - simpl. rewrite Hrole, Hparse. simpl.
    rewrite (create_sample_messages_loop_history _ (reverse entries)); [done | done |].
    rewrite filter_reverse. by apply Forall2_reverse.
  - by apply Forall_reverse.
  - rewrite filter_reverse. by apply Forall2_reverse.
Qed.

End SampleMessages.

(** ** The context loop of [create_sample] *)

#[local] Set Warnings "-clear-no-such-hyp".

Section SampleContextFacts.

Context {Replacement : Type}.
Variable _rp : Path -> string.

#[local] Abbreviation undo := (undo_file_edit (Replacement := Replacement) _rp).
#[local] Abbreviation sample_context :=
  (create_sample_context (Replacement := Replacement) _rp).
#[local] Abbreviation rename_path := (rename_path_of (Replacement := Replacement) _rp).

Lemma undo_file_edit_frame (context : gset string) file_edit p :
  p ≠ _rp (file_path file_edit) ->
  p ≠ rename_path file_edit ->
  p ∈ undo context file_edit <-> p ∈ context.
Proof.
  intros Hfile Hrename. unfold undo_file_edit.
  repeat case_match; set_solver.
Qed.

Lemma undo_file_edit_removes (context : gset string) file_edit p :
  (is_creation file_edit = true /\ p = _rp (file_path file_edit))
  \/ (p = rename_path file_edit /\ p ≠ ""%string) ->
  p ∉ undo context file_edit.
Proof.
  unfold undo_file_edit. intros [[Hcreate ->] | [-> Hne]].
  - rewrite Hcreate. simpl.
    repeat case_bool_decide;
      repeat case_match; set_solver.
  - assert (nonempty_string (rename_path file_edit) = true) as ->.
    { unfold nonempty_string. by destruct (String.eqb_spec (rename_path file_edit) ""). }
    simpl. repeat case_bool_decide;
      repeat case_match; set_solver.
Qed.

Lemma undo_file_edit_no_add (context : gset string) file_edit p :
  p ∉ context -> p ≠ _rp (file_path file_edit) -> p ∉ undo context file_edit.
Proof.
  intros Hp Hfile. unfold undo_file_edit.
  repeat case_match; set_solver.
Qed.

Lemma undo_file_edit_keeps (context : gset string) file_edit p :
  p ∈ context ->
  ¬ (is_creation file_edit = true /\ p = _rp (file_path file_edit)) ->
  p ≠ rename_path file_edit ->
  p ∈ undo context file_edit.
Proof.
  intros Hp Hcreate Hrename. unfold undo_file_edit.
  destruct (is_creation file_edit) eqn:Hc; simpl.
  - assert (p ≠ _rp (file_path file_edit)) by (intros ->; by apply Hcreate).
    repeat case_match; set_solver.
  - repeat case_match; set_solver.
Qed.

Lemma undo_file_edit_adds (context : gset string) file_edit :
  is_creation file_edit = false ->
  is_deletion file_edit = true \/ rename_path file_edit ≠ ""%string
    \/ replacements file_edit ≠ [] ->
  _rp (file_path file_edit) ≠ rename_path file_edit ->
  _rp (file_path file_edit) ∈ undo context file_edit.
Proof.
  intros Hcreate Hchange Hrename. unfold undo_file_edit. rewrite Hcreate. simpl.
  assert (is_deletion file_edit || nonempty_string (rename_path file_edit)
          || nonempty_list (replacements file_edit) = true) as ->.
  { destruct Hchange as [-> | [Hr | Hr]]; [done | |].
    - unfold nonempty_string. destruct (String.eqb_spec (rename_path file_edit) "");
        [done |]. by rewrite orb_true_r.
    - destruct (replacements file_edit); [done |]. by rewrite !orb_true_r. }
  repeat case_match; set_solver.
Qed.

(** X25.  The context loop of [create_sample] only touches the paths the
    edits name: a path that is neither the file path nor the rename path of
    any edit is in the resulting context exactly when it was in the context
    the loop started with. *)
Theorem create_sample_context_frame (context : gset string)
    (file_edits : list (FileEdit Replacement)) p :
  (forall file_edit, file_edit ∈ file_edits ->
     p ≠ _rp (file_path file_edit) /\ p ≠ rename_path_of _rp file_edit) ->
  p ∈ create_sample_context _rp context file_edits <-> p ∈ context.
Proof.
  unfold create_sample_context. revert context.
  induction file_edits as [| e rest IH]; intros context Hp; simpl; [done |].
  destruct (Hp e) as [Hfile Hrename]; [by left |].
  rewrite IH by (intros e' He'; apply Hp; by right).
  by apply undo_file_edit_frame.
Qed.

(** X26.  A file that an edit creates, or that an edit renames another file
    to, did not exist before the edits: it is not in the resulting context,
    even if it was in the context to begin with, as long as no later edit
    has it as its file path. *)
Theorem create_sample_context_drops_new_files (context : gset string)
    before (file_edit : FileEdit Replacement) after p :
  (is_creation file_edit = true /\ p = _rp (file_path file_edit))
  \/ (p = rename_path_of _rp file_edit /\ p ≠ ""%string) ->
  (forall later, later ∈ after -> p ≠ _rp (file_path later)) ->
  p ∉ create_sample_context _rp context (before ++ file_edit :: after).
Proof.
  intros Hnew Hafter. unfold create_sample_context. rewrite foldl_app. simpl.
  pose proof (undo_file_edit_removes (foldl undo context before) file_edit p Hnew) as Hp.
  revert Hp. generalize (undo (foldl undo context before) file_edit). intros ctx.
  revert ctx. induction after as [| e rest IH]; intros ctx Hp; simpl; [done |].
  apply IH.
  - intros later Hlater. apply Hafter. by right.
  - apply undo_file_edit_no_add; [done |]. apply Hafter. by left.
Qed.

(** X27.  A file that an edit deletes, changes or renames existed before
    the edits: its path is in the resulting context, as long as no later
    edit creates it or renames a file to it. *)
Theorem create_sample_context_adds_old_files (context : gset string)
    before (file_edit : FileEdit Replacement) after :
  is_creation file_edit = false ->
  is_deletion file_edit = true \/ rename_path_of _rp file_edit ≠ ""%string
    \/ replacements file_edit ≠ [] ->
  _rp (file_path file_edit) ≠ rename_path_of _rp file_edit ->
  (forall later, later ∈ after ->
     ¬ (is_creation later = true /\ _rp (file_path file_edit) = _rp (file_path later))
     /\ _rp (file_path file_edit) ≠ rename_path_of _rp later) ->
  _rp (file_path file_edit) ∈ create_sample_context _rp context (before ++ file_edit :: after).
Proof.
  intros Hcreate Hchange Hrename Hafter. unfold create_sample_context.
  rewrite foldl_app. simpl.
  pose proof (undo_file_edit_adds (foldl undo context before) file_edit
                Hcreate Hchange Hrename) as Hp.
  revert Hp. generalize (undo (foldl undo context before) file_edit). intros ctx.
  revert ctx. induction after as [| e rest IH]; intros ctx Hp; simpl; [done |].
  apply IH.
  - intros later Hlater. apply Hafter. by right.
  - destruct (Hafter e) as [Hc Hr]; [by left |]. by apply undo_file_edit_keeps.
Qed.

End SampleContextFacts.

Lemma create_sample_messages_split_witness :
  let rules := mkMessage "system" (ContentStr "be brief") in
  let question := mkMessage "user" (ContentStr "fix the bug") in
  let answer := mkMessage "assistant" (ContentStr "done") in
  let request := mkMessage "user" (ContentStr "add a test") in
  let edit := mkMessage "assistant" (ContentStr "here it is") in
  let image := mkMessage "user" (ContentList [NoText]) in
  let more := mkMessage "assistant" (ContentStr " and more") in
  role request = "user"%string
  /\ parse_message starts_fence ends_fence lf_lines request = Parsed "add a test" ""
  /\ "add a test"%string ≠ ""%string
  /\ parse_message starts_fence ends_fence lf_lines image = Parsed "" ""
  /\ create_sample_messages starts_fence ends_fence lf_lines
       ([rules; question; answer] ++ request :: [edit; image; rules; more])
     = Some (reverse [mkHistoryEntry "user" "fix the bug";
                      mkHistoryEntry "assistant" "done"],
             "add a test"%string,
             foldr String.append "" (reverse ["here it is"%string; " and more"%string])).
Proof.
  intros rules question answer request edit image more.
  assert (Forall2 (fun m h => exists t c,
                               parse_message starts_fence ends_fence lf_lines m
                               = Parsed t c
                               /\ h = mkHistoryEntry (role m) (t ++ c))
            (filter (fun m => user_or_assistant m = true) [rules; question; answer])
            [mkHistoryEntry "user" "fix the bug"; mkHistoryEntry "assistant" "done"])
    as Hbefore.
  { repeat constructor; by eexists _, _. }
  assert (Forall (fun m => role m = "user"%string ->
                           exists c, parse_message starts_fence ends_fence lf_lines m
                                     = Parsed "" c)
            [edit; image; rules; more]) as Husers.
  { repeat constructor; try (intros Hr; discriminate Hr). intros _. by eexists. }
  assert (Forall2 (fun m x => exists c, parse_message starts_fence ends_fence lf_lines m
                                        = Parsed x c)
            (filter (fun m => role m = "assistant"%string) [edit; image; rules; more])
            ["here it is"%string; " and more"%string]) as Hafter.
  { repeat constructor; by eexists. }
  assert ("add a test"%string ≠ ""%string) as Hne by discriminate.
  split; [reflexivity |]. split; [reflexivity |]. split; [exact Hne |].
  split; [reflexivity |].
  exact (create_sample_messages_split starts_fence ends_fence lf_lines
           [rules; question; answer] request [edit; image; rules; more] _
           "add a test" "" _ Hbefore eq_refl eq_refl Hne Husers Hafter).
Defined.

Lemma create_sample_context_frame_witness :
  (forall file_edit, file_edit ∈ [change_old; create_new] ->
     "kept.py"%string ≠ posix (file_path file_edit)
     /\ "kept.py"%string ≠ rename_path_of posix file_edit)
  /\ ("kept.py"%string ∈ create_sample_context posix {["kept.py"%string]}
                           [change_old; create_new]
      <-> "kept.py"%string ∈ ({["kept.py"%string]} : gset string)).
Proof.
  assert (forall file_edit, file_edit ∈ [change_old; create_new] ->
            "kept.py"%string ≠ posix (file_path file_edit)
            /\ "kept.py"%string ≠ rename_path_of posix file_edit) as Hp.
  { intros e He. apply elem_of_cons in He as [-> | He]; [by split |].
    apply list_elem_of_singleton in He as ->. by split. }
  split; [exact Hp |].
  exact (create_sample_context_frame posix {["kept.py"%string]} [change_old; create_new]
           "kept.py" Hp).
Defined.

Lemma create_sample_context_drops_witness :
  ((is_creation create_new = true /\ "new.py"%string = posix (file_path create_new))
   \/ ("new.py"%string = rename_path_of posix create_new /\ "new.py"%string ≠ ""%string))
  /\ (forall later, later ∈ [rename_a_to_b] ->
        "new.py"%string ≠ posix (file_path later))
  /\ "new.py"%string ∉ create_sample_context posix {["new.py"%string]}
                         ([change_old] ++ create_new :: [rename_a_to_b]).
Proof.
  assert ((is_creation create_new = true
           /\ "new.py"%string = posix (file_path create_new))
          \/ ("new.py"%string = rename_path_of posix create_new
              /\ "new.py"%string ≠ ""%string)) as Hnew by (left; by split).
  assert (forall later, later ∈ [rename_a_to_b] ->
            "new.py"%string ≠ posix (file_path later)) as Hafter.
  { intros e He. by apply list_elem_of_singleton in He as ->. }
  split; [exact Hnew |]. split; [exact Hafter |].
  exact (create_sample_context_drops_new_files posix {["new.py"%string]}
           [change_old] create_new [rename_a_to_b] "new.py" Hnew Hafter).
Defined.

Lemma create_sample_context_adds_witness :
  is_creation rename_a_to_b = false
  /\ (is_deletion rename_a_to_b = true \/ rename_path_of posix rename_a_to_b ≠ ""%string
      \/ replacements rename_a_to_b ≠ [])
  /\ posix (file_path rename_a_to_b) ≠ rename_path_of posix rename_a_to_b
  /\ (forall later, later ∈ [create_new] ->
        ¬ (is_creation later = true
           /\ posix (file_path rename_a_to_b) = posix (file_path later))
        /\ posix (file_path rename_a_to_b) ≠ rename_path_of posix later)
  /\ posix (file_path rename_a_to_b)
       ∈ create_sample_context posix ∅ ([change_old] ++ rename_a_to_b :: [create_new]).
Proof.
  assert (is_deletion rename_a_to_b = true \/ rename_path_of posix rename_a_to_b ≠ ""%string
          \/ replacements rename_a_to_b ≠ []) as Hchange by (right; left; discriminate).
  assert (posix (file_path rename_a_to_b) ≠ rename_path_of posix rename_a_to_b) as Hne
    by discriminate.
  assert (forall later, later ∈ [create_new] ->
            ¬ (is_creation later = true
               /\ posix (file_path rename_a_to_b) = posix (file_path later))
            /\ posix (file_path rename_a_to_b) ≠ rename_path_of posix later) as Hafter.
  { intros e He. apply list_elem_of_singleton in He as ->.
    split; [by intros [_ ?] | discriminate]. }
  split; [reflexivity |]. split; [exact Hchange |]. split; [exact Hne |].
  split; [exact Hafter |].
  exact (create_sample_context_adds_old_files posix ∅ [change_old] rename_a_to_b
           [create_new] eq_refl Hchange Hne Hafter).
Defined.
